(** * eg-julia.amp.lv2: the worker thread, the Julia singleton and the amplifier plugin

    A shallow embedding of [julia-amp.cpp].

    - [Worker] is the class [Worker]: one thread, a deque of closures, a mutex
      and a condition variable.  Every region the code runs under the mutex is
      one atomic action of the model, the call [task()] made outside the mutex
      is another one, and an execution of the program is a schedule: a list of
      such actions taken by the worker thread and by any number of caller
      threads.
    - [Julia] is the class [Julia]: the function-local static instance that
      owns a [Worker] and starts and stops the embedded runtime on it.
    - [Amp] is the LV2 plugin: the instance structure and the host callbacks. *)

From Stdlib Require Import ZArith SpecFloat.
From stdpp Require Import base tactics option list strings.

Set Default Proof Using "Type".

(** ** Lists that grow at the tail *)

Lemma elem_of_snoc_ne {A : Type} (x y : A) (l : list A) :
  x <> y -> x ∈ l ++ [y] <-> x ∈ l.
Proof.
  intros Hne. rewrite elem_of_app, list_elem_of_singleton. tauto.
Qed.

Lemma elem_of_snoc_eq {A : Type} (x : A) (l : list A) : x ∈ l ++ [x].
Proof. apply elem_of_app. right. by apply list_elem_of_singleton. Qed.

(** ** Worker *)

Module Worker.
Section Worker.

(** [World] is everything a task body can read and change (for the plugin:
    the embedded runtime and the standard output), [Exn] the exceptions a
    body may throw and [T] the type a body returns.  [spawn] and [run] are
    templates over the return type; one worker is given one [T] here, and
    the plugin takes the sum of the types its closures return. *)
Context {World Exn T : Type}.

(** What [std::packaged_task::operator()] leaves in the shared state: the
    value the stored callable returned, or the exception it threw. *)
Inductive outcome : Type :=
| Value (v : T)
| Thrown (e : Exn).

(** A zero-argument callable [f]: it runs against the world. *)
Definition callable : Type := World -> outcome * World.

(** [std::packaged_task<T()>]: the stored callable and the shared state that
    its future reads. *)
Record packaged_task : Type := PackagedTask {
  stored : callable;
  shared_state : option outcome
}.

(** Where the worker thread stands in [threadFunc]: at the top of the loop
    (about to lock, or inside [cond.wait]), at line 92 about to call the
    closure it popped, or past the [break]. *)
Inductive thread_pc : Type :=
| AtLoop
| Calling (id : nat)
| Returned.

Inductive event : Type :=
| Pushed (id : nat)      (* tasks.push_back in spawn *)
| Popped (id : nat)      (* tasks.front / pop_front in threadFunc *)
| Completed (id : nat)   (* task() returned in threadFunc *)
| StopSet                (* running = false in the destructor *)
| ThreadExit             (* break in threadFunc *)
| Joined.                (* t.join() returned in the destructor *)

(** The fields of the class, the packaged tasks the queued closures refer
    to ([tasks] holds closures [[&task] { task(); }]: references, modelled
    as indices into [pool]), the world, and the history of what happened. *)
Record t : Type := Build {
  running : bool;
  tasks : list nat;
  pool : list packaged_task;
  thr : thread_pc;
  world : World;
  trace : list event
}.

(** [Worker()]: [running = true], an empty deque, the thread started. *)
Definition init (w0 : World) : t :=
  Build true [] [] AtLoop w0 [].

Inductive action : Type :=
| Spawn (f : callable)   (* a caller: the body of spawn *)
| Wake                   (* the worker: lines 82-91, one locked region *)
| Invoke                 (* the worker: line 92, task() *)
| Stop                   (* the destructor: lines 57-61 *)
| Join.                  (* the destructor: line 62 *)

(** The handle of the next packaged task that [spawn] creates. *)
Definition next_id (w : t) : nat := length (pool w).

(** [spawn(f)]: a packaged task is made from [f], a closure that refers to
    it is appended to the deque, and the packaged task is returned; the new
    state and the handle of the packaged task.  The object that the caller
    receives is the one the closure refers to (the local [task] is returned
    without a copy). *)
Definition spawn (f : callable) (w : t) : t * nat :=
  (Build (running w) (tasks w ++ [next_id w])
         (pool w ++ [PackagedTask f None]) (thr w) (world w)
         (trace w ++ [Pushed (next_id w)]),
   next_id w).

(** One atomic action; [None] when the thread that takes it is blocked
    ([cond.wait] with nothing to do, [join] on a thread still running) or
    when the action is not the one that thread is at. *)
Definition perform (a : action) (w : t) : option t :=
  match a with
  | Spawn f => Some (fst (spawn f w))
  | Wake =>
      match thr w with
      | AtLoop =>
          if running w then
            match tasks w with
            | [] => None
            | id :: rest =>
                Some (Build true rest (pool w) (Calling id) (world w)
                            (trace w ++ [Popped id]))
            end
          else
            Some (Build false (tasks w) (pool w) Returned (world w)
                        (trace w ++ [ThreadExit]))
      | _ => None
      end
  | Invoke =>
      match thr w with
      | Calling id =>
          match pool w !! id with
          | Some (PackagedTask f None) =>
              let r := f (world w) in
              Some (Build (running w) (tasks w)
                          (<[id := PackagedTask f (Some (fst r))]> (pool w))
                          AtLoop (snd r) (trace w ++ [Completed id]))
          | _ => None
          end
      | _ => None
      end
  | Stop =>
      Some (Build false (tasks w) (pool w) (thr w) (world w)
                  (trace w ++ [StopSet]))
  | Join =>
      match thr w with
      | Returned =>
          Some (Build (running w) (tasks w) (pool w) Returned (world w)
                      (trace w ++ [Joined]))
      | _ => None
      end
  end.

(** A schedule: the actions of all threads in the order they happen. *)
Fixpoint runs (sched : list action) (w : t) : option t :=
  match sched with
  | [] => Some w
  | a :: rest =>
      match perform a w with
      | Some w' => runs rest w'
      | None => None
      end
  end.

(** [future.get()]: the outcome once the shared state is set, [None] while
    the caller has to wait. *)
Definition future_get (id : nat) (w : t) : option outcome :=
  match pool w !! id with
  | Some pt => shared_state pt
  | None => None
  end.

(** The next action of the worker thread in [threadFunc]. *)
Definition threadFunc_step (w : t) : option t :=
  match thr w with
  | AtLoop => perform Wake w
  | Calling _ => perform Invoke w
  | Returned => None
  end.

(** A caller blocked in [get()] while the worker thread goes on: [None] when
    the worker can make no step that fulfils the future. *)
Fixpoint await (fuel : nat) (id : nat) (w : t) : option t :=
  match future_get id w with
  | Some _ => Some w
  | None =>
      match fuel with
      | O => None
      | S k =>
          match threadFunc_step w with
          | Some w' => await k id w'
          | None => None
          end
      end
  end.

(** [run(f)] is [spawn(f).get_future().get()].  The wait is bounded by the
    work in front of the task: two actions for each closure in the deque and
    one for a closure the thread is calling. *)
Definition run (f : callable) (w : t) : option (outcome * t) :=
  let '(w1, id) := spawn f w in
  match await (2 * length (tasks w1) + 1) id w1 with
  | Some w2 =>
      match future_get id w2 with
      | Some o => Some (o, w2)
      | None => None
      end
  | None => None
  end.

(** [threadFunc] from where the thread stands until it returns; [None] when
    the fuel does not take the thread that far or the thread is blocked. *)
Fixpoint threadFunc (fuel : nat) (w : t) : option t :=
  match thr w with
  | Returned => Some w
  | _ =>
      match fuel with
      | O => None
      | S k =>
          match threadFunc_step w with
          | Some w' => threadFunc k w'
          | None => None
          end
      end
  end.

(** [~Worker()]: clear [running], notify, join.  After [running] is
    cleared the thread needs at most two actions to leave: finishing the
    call it is in, and the locked region that sees [!running]. *)
Definition destroy (w : t) : option t :=
  match perform Stop w with
  | Some w1 =>
      match threadFunc 2 w1 with
      | Some w2 => perform Join w2
      | None => None
      end
  | None => None
  end.

(** *** Reading the history *)

Definition pushed_id (e : event) : option nat :=
  match e with Pushed i => Some i | _ => None end.
Definition popped_id (e : event) : option nat :=
  match e with Popped i => Some i | _ => None end.
Definition completed_id (e : event) : option nat :=
  match e with Completed i => Some i | _ => None end.

(** Submission order, dequeue order and execution order. *)
Definition pushed (w : t) : list nat := omap pushed_id (trace w).
Definition popped (w : t) : list nat := omap popped_id (trace w).
Definition completed (w : t) : list nat := omap completed_id (trace w).

Definition in_flight (w : t) : list nat :=
  match thr w with Calling id => [id] | _ => [] end.

(** The actions of the worker thread. *)
Definition worker_action (a : action) : Prop := a = Wake \/ a = Invoke.

(** A callable that touches nothing and returns [v]. *)
Definition pure_work (f : callable) (v : T) : Prop :=
  forall wd, f wd = (Value v, wd).

(** What holds in every state a schedule can reach. *)
Record inv (w : t) : Prop := Inv {
  inv_pushed : pushed w = seq 0 (length (pool w));
  inv_queue : pushed w = popped w ++ tasks w;
  inv_flight : popped w = completed w ++ in_flight w;
  inv_done : forall id pt, pool w !! id = Some pt ->
               (is_Some (shared_state pt) <-> id ∈ completed w);
  inv_sound : forall id pt o, pool w !! id = Some pt ->
                 shared_state pt = Some o -> exists wd, o = fst (stored pt wd);
  inv_exit : thr w = Returned -> running w = false;
  inv_stop : running w = false <-> StopSet ∈ trace w
}.

(** From [w] to [w']: every packaged task is still there with the callable
    it was made from, and a shared state that was set has kept its outcome. *)
Definition extends (w w' : t) : Prop :=
  forall id pt, pool w !! id = Some pt ->
    exists pt', pool w' !! id = Some pt' /\ stored pt' = stored pt /\
      (is_Some (shared_state pt) -> shared_state pt' = shared_state pt).

(** *** The invariant *)

Lemma inv_init (w0 : World) : inv (init w0).
Proof.
  split; simpl; try done.
  split; [done|]. by intros ?%elem_of_nil.
Qed.

Lemma completed_lt (w : t) id :
  inv w -> id ∈ completed w -> id < length (pool w).
Proof.
  intros I Hc.
  assert (id ∈ pushed w) as Hp.
  { rewrite (inv_queue w I), (inv_flight w I), !elem_of_app. tauto. }
  rewrite (inv_pushed w I) in Hp.
  apply elem_of_seq in Hp. lia.
Qed.

Local Ltac split_inv :=
  split; unfold pushed, popped, completed, in_flight; simpl;
  rewrite ?omap_app; simpl; rewrite ?app_nil_r.

Lemma inv_perform (a : action) (w w' : t) :
  inv w -> perform a w = Some w' -> inv w'.
Proof.
  intros I H. pose proof (fun id => completed_lt w id I) as Hlt.
  destruct I as [I1 I2 I3 I4 Is I5 I6].
  unfold pushed, popped, completed, in_flight, next_id in *.
  destruct a; simpl in H.
  - (* Spawn *)
    simplify_eq. split_inv.
    + rewrite length_app, Nat.add_1_r, seq_S. simpl. by rewrite I1.
    + rewrite I2. by rewrite (assoc_L (++)).
    + done.
    + intros id pt Hl.
      apply lookup_app_Some in Hl as [Hl|[Hge Hl]]; [by apply I4|].
      apply list_lookup_singleton_Some in Hl as [Hz Hpt]. subst pt. simpl.
      split; [by intros [? ?]|].
      intros Hc. apply Hlt in Hc. lia.
    + intros id pt o Hl Ho.
      apply lookup_app_Some in Hl as [Hl|[Hge Hl]]; [by eapply Is|].
      apply list_lookup_singleton_Some in Hl as [Hz Hpt]. by subst pt.
    + done.
    + by rewrite elem_of_snoc_ne.
  - (* Wake *)
    destruct (thr w) eqn:Ht; try done.
    rewrite app_nil_r in I3.
    destruct (running w) eqn:Hr.
    + destruct (tasks w) as [|id rest] eqn:Hq; [done|].
      simplify_eq. split_inv; try done.
      * rewrite I2. by rewrite <- (assoc_L (++)).
      * by rewrite I3.
      * by rewrite elem_of_snoc_ne.
    + simplify_eq. split_inv; try done.
      by rewrite elem_of_snoc_ne.
  - (* Invoke *)
    destruct (thr w) as [|id|] eqn:Ht; try done.
    destruct (pool w !! id) as [[f [o|]]|] eqn:Hp; try done.
    simplify_eq. split_inv; try done.
    + by rewrite length_insert.
    + intros id' pt Hl.
      destruct (decide (id = id')) as [<-|Hne].
      * rewrite list_lookup_insert_eq in Hl by (by eapply lookup_lt_Some).
        injection Hl as <-. simpl.
        split; [intros _; apply elem_of_snoc_eq|by eexists].
      * rewrite list_lookup_insert_ne in Hl by done.
        rewrite (I4 _ _ Hl). by rewrite elem_of_snoc_ne.
    + intros id' pt o Hl Ho.
      destruct (decide (id = id')) as [<-|Hne].
      * rewrite list_lookup_insert_eq in Hl by (by eapply lookup_lt_Some).
        injection Hl as <-. simpl in *. injection Ho as <-. by eexists.
      * rewrite list_lookup_insert_ne in Hl by done. by eapply Is.
    + by rewrite elem_of_snoc_ne.
  - (* Stop *)
    simplify_eq. split_inv; try done.
    split; [|done]. intros _. apply elem_of_snoc_eq.
  - (* Join *)
    destruct (thr w) eqn:Ht; try done.
    rewrite app_nil_r in I3.
    simplify_eq. split_inv; try done.
    by rewrite elem_of_snoc_ne.
Qed.

Lemma runs_cons (a : action) (sched : list action) (w : t) :
  runs (a :: sched) w =
    match perform a w with
    | Some w' => runs sched w'
    | None => None
    end.
Proof. done. Qed.

Lemma runs_app (pre post : list action) (w w1 : t) :
  runs pre w = Some w1 -> runs (pre ++ post) w = runs post w1.
Proof.
  revert w. induction pre as [|a pre IH]; simpl; intros w H.
  - by simplify_eq.
  - destruct (perform a w); [|done]. by apply IH.
Qed.

Lemma inv_runs (sched : list action) (w w' : t) :
  inv w -> runs sched w = Some w' -> inv w'.
Proof.
  revert w. induction sched as [|a rest IH]; simpl; intros w I H.
  - by injection H as <-.
  - destruct (perform a w) as [w1|] eqn:Ha; [|done].
    eauto using inv_perform.
Qed.

(** *** Packaged tasks keep their callable and their outcome *)

Lemma extends_refl (w : t) : extends w w.
Proof. intros id pt H. by exists pt. Qed.

Lemma extends_trans (w1 w2 w3 : t) :
  extends w1 w2 -> extends w2 w3 -> extends w1 w3.
Proof.
  intros H12 H23 id pt H.
  destruct (H12 id pt H) as (pt2 & H2 & Hs2 & Ho2).
  destruct (H23 id pt2 H2) as (pt3 & H3 & Hs3 & Ho3).
  exists pt3. split; [done|]. split; [congruence|].
  intros Hsome. rewrite <- (Ho2 Hsome). apply Ho3. by rewrite (Ho2 Hsome).
Qed.

Lemma extends_perform (a : action) (w w' : t) :
  perform a w = Some w' -> extends w w'.
Proof.
  intros H id pt Hl. destruct a; simpl in H.
  - simplify_eq. exists pt. simpl. split; [|done].
    by apply lookup_app_l_Some.
  - destruct (thr w); try done. destruct (running w).
    + destruct (tasks w); [done|]. simplify_eq. by exists pt.
    + simplify_eq. by exists pt.
  - destruct (thr w) as [|id0|]; try done.
    destruct (pool w !! id0) as [[f [o|]]|] eqn:Hp; try done.
    simplify_eq. simpl.
    destruct (decide (id0 = id)) as [->|Hne].
    + rewrite Hp in Hl. simplify_eq. eexists. split.
      * apply list_lookup_insert_eq. by eapply lookup_lt_Some.
      * simpl. split; [done|]. by intros [? ?].
    + exists pt. by rewrite list_lookup_insert_ne.
  - simplify_eq. by exists pt.
  - destruct (thr w); try done. simplify_eq. by exists pt.
Qed.

Lemma extends_runs (sched : list action) (w w' : t) :
  runs sched w = Some w' -> extends w w'.
Proof.
  revert w. induction sched as [|a rest IH]; simpl; intros w H.
  - simplify_eq. apply extends_refl.
  - destruct (perform a w) as [w1|] eqn:Ha; [|done].
    eauto using extends_trans, extends_perform.
Qed.

Lemma threadFunc_step_perform (w w' : t) :
  threadFunc_step w = Some w' -> exists a, perform a w = Some w'.
Proof.
  unfold threadFunc_step. destruct (thr w); [by exists Wake|by exists Invoke|done].
Qed.

Lemma await_runs (fuel id : nat) (w w' : t) :
  await fuel id w = Some w' -> exists sched, runs sched w = Some w'.
Proof.
  revert w. induction fuel as [|k IH]; simpl; intros w H.
  - destruct (future_get id w); [|done]. simplify_eq. by exists [].
  - destruct (future_get id w); [simplify_eq; by exists []|].
    destruct (threadFunc_step w) as [w1|] eqn:Hs; [|done].
    apply threadFunc_step_perform in Hs as [a Ha].
    destruct (IH _ H) as [sched Hr].
    exists (a :: sched). simpl. by rewrite Ha.
Qed.

(** *** Progress of the worker thread *)

Lemma queued_unfulfilled (w : t) (id : nat) :
  inv w -> id ∈ in_flight w ++ tasks w ->
  exists f, pool w !! id = Some (PackagedTask f None).
Proof.
  intros I Hin.
  pose proof (NoDup_seq 0 (length (pool w))) as Hnd.
  rewrite <- (inv_pushed w I), (inv_queue w I), (inv_flight w I) in Hnd.
  rewrite <- (assoc_L (++)) in Hnd.
  apply NoDup_app in Hnd as (_ & Hdisj & _).
  assert (id < length (pool w)) as Hlt.
  { assert (id ∈ pushed w) as Hp.
    { rewrite (inv_queue w I), (inv_flight w I), <- (assoc_L (++)).
      apply elem_of_app. by right. }
    rewrite (inv_pushed w I) in Hp. apply elem_of_seq in Hp. lia. }
  apply lookup_lt_is_Some_2 in Hlt as [[f st] Hl].
  exists f. destruct st as [o|]; [|done].
  exfalso. eapply Hdisj; [|exact Hin].
  apply (inv_done w I id _ Hl). by eexists.
Qed.

Lemma future_get_queued (w : t) (id : nat) :
  inv w -> id ∈ in_flight w ++ tasks w -> future_get id w = None.
Proof.
  intros I Hin. destruct (queued_unfulfilled w id I Hin) as [f Hl].
  unfold future_get. by rewrite Hl.
Qed.

(** The call at line 92 always goes through: the closure the thread holds
    refers to a packaged task that has not been invoked. *)
Lemma invoke_enabled (w : t) (id : nat) :
  inv w -> thr w = Calling id ->
  exists f, pool w !! id = Some (PackagedTask f None) /\
    perform Invoke w =
      Some (Build (running w) (tasks w)
                  (<[id := PackagedTask f (Some (fst (f (world w))))]> (pool w))
                  AtLoop (snd (f (world w))) (trace w ++ [Completed id])).
Proof.
  intros I Ht.
  destruct (queued_unfulfilled w id I) as [f Hl].
  { unfold in_flight. rewrite Ht. apply elem_of_app. left.
    by apply list_elem_of_singleton. }
  exists f. split; [done|]. simpl. by rewrite Ht, Hl.
Qed.

(** One wake cycle with the worker running: exactly the head of the deque is
    removed, and exactly that task is executed. *)
Lemma wake_cycle (w : t) (id : nat) (rest : list nat) :
  inv w -> running w = true -> thr w = AtLoop -> tasks w = id :: rest ->
  exists f w1 w2,
    pool w !! id = Some (PackagedTask f None) /\
    perform Wake w = Some w1 /\ perform Invoke w1 = Some w2 /\
    w1 = Build true rest (pool w) (Calling id) (world w)
               (trace w ++ [Popped id]) /\
    w2 = Build true rest
               (<[id := PackagedTask f (Some (fst (f (world w))))]> (pool w))
               AtLoop (snd (f (world w)))
               (trace w ++ [Popped id; Completed id]).
Proof.
  intros I Hr Ht Hq.
  assert (perform Wake w =
          Some (Build true rest (pool w) (Calling id) (world w)
                      (trace w ++ [Popped id]))) as Hw.
  { simpl. by rewrite Ht, Hr, Hq. }
  pose proof (inv_perform _ _ _ I Hw) as I1.
  destruct (invoke_enabled _ id I1 eq_refl) as (f & Hl & Hi). simpl in *.
  eexists f, _, _. split; [done|]. split; [exact Hw|]. split; [exact Hi|].
  split; [done|]. by rewrite <- (assoc_L (++)).
Qed.

Lemma await_front (q : list nat) :
  forall (w : t) (id : nat) (rest : list nat) (fuel : nat),
    inv w -> running w = true -> thr w = AtLoop ->
    tasks w = q ++ id :: rest -> 2 * length q + 2 <= fuel ->
    exists w', await fuel id w = Some w' /\ is_Some (future_get id w') /\
      running w' = true /\ thr w' = AtLoop /\ tasks w' = rest.
Proof.
  induction q as [|a q IH]; intros w id rest fuel I Hr Ht Hq Hfuel.
  - simpl in Hq.
    destruct (wake_cycle w id rest I Hr Ht Hq)
      as (f & w1 & w2 & Hl & Hw & Hi & E1 & E2).
    destruct fuel as [|[|k]]; [simpl in Hfuel; lia..|].
    exists w2.
    assert (future_get id w = None) as G0.
    { unfold future_get. by rewrite Hl. }
    assert (future_get id w1 = None) as G1.
    { subst w1. unfold future_get. simpl. by rewrite Hl. }
    assert (future_get id w2 = Some (fst (f (world w)))) as G2.
    { subst w2. unfold future_get. simpl.
      rewrite list_lookup_insert_eq by (by eapply lookup_lt_Some). done. }
    split.
    + simpl. rewrite G0. unfold threadFunc_step at 1. rewrite Ht, Hw.
      rewrite G1. unfold threadFunc_step at 1.
      replace (thr w1) with (Calling id) by (by subst w1).
      rewrite Hi. destruct k; simpl; by rewrite G2.
    + rewrite G2. subst w2. simpl. eauto.
  - simpl in Hq.
    destruct (wake_cycle w a (q ++ id :: rest) I Hr Ht Hq)
      as (f & w1 & w2 & Hl & Hw & Hi & E1 & E2).
    destruct fuel as [|[|k]]; [simpl in Hfuel; lia..|].
    pose proof (inv_perform _ _ _ I Hw) as I1.
    pose proof (inv_perform _ _ _ I1 Hi) as I2.
    destruct (IH w2 id rest k I2) as (w' & Ha & Hrest);
      [by subst w2..|simpl in *; lia|].
    exists w'. split; [|done].
    assert (future_get id w = None) as G0.
    { apply future_get_queued; [done|]. rewrite Hq.
      apply elem_of_app. right. apply elem_of_cons. right.
      apply elem_of_app. right. apply elem_of_cons. by left. }
    assert (future_get id w1 = None) as G1.
    { apply future_get_queued; [done|]. subst w1. unfold in_flight. simpl.
      apply elem_of_cons. right.
      apply elem_of_app. right. apply elem_of_cons. by left. }
    change (await (S (S k)) id w) with
      (match future_get id w with
       | Some _ => Some w
       | None => match threadFunc_step w with
                 | Some w' => await (S k) id w'
                 | None => None
                 end
       end).
    rewrite G0. unfold threadFunc_step at 1. rewrite Ht, Hw.
    change (await (S k) id w1) with
      (match future_get id w1 with
       | Some _ => Some w1
       | None => match threadFunc_step w1 with
                 | Some w' => await k id w'
                 | None => None
                 end
       end).
    rewrite G1. unfold threadFunc_step at 1.
    replace (thr w1) with (Calling a) by (by subst w1).
    by rewrite Hi.
Qed.

Lemma spawn_perform (f : callable) (w : t) :
  perform (Spawn f) w = Some (fst (spawn f w)).
Proof. done. Qed.

Lemma await_extends (fuel id : nat) (w w' : t) :
  await fuel id w = Some w' -> extends w w'.
Proof. intros [sched H]%await_runs. by eapply extends_runs. Qed.

Lemma await_inv (fuel id : nat) (w w' : t) :
  inv w -> await fuel id w = Some w' -> inv w'.
Proof. intros I [sched H]%await_runs. by eapply inv_runs. Qed.

Lemma running_not_returned (w : t) :
  inv w -> running w = true -> thr w <> Returned.
Proof. intros I Hr Ht. apply (inv_exit w I) in Ht. congruence. Qed.

(** A blocked [run] comes back: with the worker running, the thread works
    through the deque up to the new task and fulfils its future. *)
Lemma run_live (f : callable) (w : t) :
  inv w -> running w = true ->
  exists o w', run f w = Some (o, w') /\ inv w' /\
    (exists wd, o = fst (f wd)) /\
    running w' = true /\ thr w' = AtLoop /\ tasks w' = [].
Proof.
  intros I Hr.
  pose proof (inv_perform _ _ _ I (spawn_perform f w)) as I1.
  assert (exists w2, await (2 * length (tasks (fst (spawn f w))) + 1)
                       (next_id w) (fst (spawn f w)) = Some w2 /\
            is_Some (future_get (next_id w) w2) /\
            running w2 = true /\ thr w2 = AtLoop /\ tasks w2 = [])
    as (w2 & Ha & [o Ho] & Hr2 & Ht2 & Hq2).
  { destruct (thr w) as [|id0|] eqn:Ht.
    - apply (await_front (tasks w)); try done.
      simpl. rewrite length_app. simpl. lia.
    - destruct (invoke_enabled (fst (spawn f w)) id0 I1)
        as (g & Hl & Hi); [done|].
      pose proof (inv_perform _ _ _ I1 Hi) as I2.
      destruct (await_front (tasks w) _ (next_id w) [] (2 * length (tasks w) + 2) I2)
        as (w2 & Ha & Hrest); try done.
      exists w2. split; [|done].
      assert (future_get (next_id w) (fst (spawn f w)) = None) as G.
      { apply future_get_queued; [done|]. simpl.
        apply elem_of_app. right. apply elem_of_snoc_eq. }
      simpl length. rewrite length_app. simpl length.
      replace (2 * (length (tasks w) + 1) + 1)
        with (S (2 * length (tasks w) + 2)) by lia.
      change (await (S ?k) ?i ?x) with
        (match future_get i x with
         | Some _ => Some x
         | None => match threadFunc_step x with
                   | Some w' => await k i w'
                   | None => None
                   end
         end).
      rewrite G. unfold threadFunc_step at 1. simpl thr. rewrite Ht.
      by rewrite Hi.
    - by destruct (running_not_returned w I Hr). }
  pose proof (await_inv _ _ _ _ I1 Ha) as I2.
  exists o, w2. unfold run. simpl. simpl in Ha. rewrite Ha, Ho.
  split; [done|]. split; [done|]. split; [|done].
  destruct (await_extends _ _ _ _ Ha (next_id w) (PackagedTask f None))
    as (pt' & Hl' & Hst & _).
  { simpl. unfold next_id. by rewrite lookup_app_r, Nat.sub_diag. }
  unfold future_get in Ho. rewrite Hl' in Ho.
  destruct (inv_sound w2 I2 _ _ _ Hl' Ho) as [wd Hwd].
  exists wd. by rewrite Hwd, Hst.
Qed.

(** With nothing queued and the thread idle, [run f] is [f] executed on the
    worker thread against the current world. *)
Lemma run_idle (f : callable) (w : t) :
  running w = true -> thr w = AtLoop -> tasks w = [] ->
  run f w =
    Some (fst (f (world w)),
          Build true [] (pool w ++ [PackagedTask f (Some (fst (f (world w))))])
                AtLoop (snd (f (world w)))
                (trace w ++ [Pushed (next_id w); Popped (next_id w);
                             Completed (next_id w)])).
Proof.
  intros Hr Ht Hq. unfold run, spawn, next_id. rewrite Hq. simpl.
  unfold future_get at 1. simpl. rewrite lookup_app_r, Nat.sub_diag by done.
  simpl. unfold threadFunc_step at 1. simpl. rewrite Ht, Hr. simpl.
  unfold future_get at 1. simpl. rewrite lookup_app_r, Nat.sub_diag by done.
  simpl. unfold threadFunc_step at 1. simpl.
  rewrite lookup_app_r, Nat.sub_diag by done. simpl.
  assert (<[length (pool w) := PackagedTask f (Some (fst (f (world w))))]>
            (pool w ++ [PackagedTask f None]) =
          pool w ++ [PackagedTask f (Some (fst (f (world w))))]) as ->.
  { rewrite insert_app_r_alt, Nat.sub_diag by done. done. }
  unfold future_get. simpl. rewrite lookup_app_r, Nat.sub_diag by done. simpl.
  rewrite lookup_app_r, Nat.sub_diag by done. simpl.
  by rewrite <- !(assoc_L (++)).
Qed.

Lemma pushed_worker_action (a : action) (w w' : t) :
  worker_action a -> perform a w = Some w' -> pushed w' = pushed w.
Proof.
  unfold pushed. intros [->| ->] H; simpl in H.
  - destruct (thr w); try done. destruct (running w).
    + destruct (tasks w); [done|]. simplify_eq. simpl.
      by rewrite omap_app, app_nil_r.
    + simplify_eq. simpl. by rewrite omap_app, app_nil_r.
  - destruct (thr w) as [|id|]; try done.
    destruct (pool w !! id) as [[f [o|]]|]; try done.
    simplify_eq. simpl. by rewrite omap_app, app_nil_r.
Qed.

(** Left alone, the worker thread empties the deque. *)
Lemma drain_idle (q : list nat) :
  forall w : t,
    inv w -> running w = true -> thr w = AtLoop -> tasks w = q ->
    exists sched w', Forall worker_action sched /\ runs sched w = Some w' /\
      tasks w' = [] /\ thr w' = AtLoop /\ pushed w' = pushed w.
Proof.
  induction q as [|id rest IH]; intros w I Hr Ht Hq.
  - exists [], w. split; [by apply Forall_nil|]. by repeat split.
  - destruct (wake_cycle w id rest I Hr Ht Hq)
      as (f & w1 & w2 & Hl & Hw & Hi & E1 & E2).
    pose proof (inv_perform _ _ _ I Hw) as I1.
    pose proof (inv_perform _ _ _ I1 Hi) as I2.
    destruct (IH w2 I2) as (sched & w' & Hall & Hruns & Hq' & Ht' & Hp');
      [by subst w2..|].
    exists (Wake :: Invoke :: sched), w'.
    split.
    { apply Forall_cons. split; [by left|].
      apply Forall_cons. split; [by right|done]. }
    split; [by rewrite runs_cons, Hw, runs_cons, Hi|].
    split; [done|]. split; [done|].
    rewrite Hp'.
    rewrite (pushed_worker_action Invoke w1 w2), (pushed_worker_action Wake w w1);
      try done; [by left|by right].
Qed.

Lemma drain (w : t) :
  inv w -> running w = true ->
  exists sched w', Forall worker_action sched /\ runs sched w = Some w' /\
    completed w' = pushed w.
Proof.
  intros I Hr.
  assert (exists pre w1, Forall worker_action pre /\ runs pre w = Some w1 /\
            inv w1 /\ running w1 = true /\ thr w1 = AtLoop /\
            pushed w1 = pushed w) as (pre & w1 & Hpre & Hr1 & I1 & R1 & T1 & P1).
  { destruct (thr w) as [|id|] eqn:Ht.
    - exists [], w. split; [by apply Forall_nil|].
      do 4 (split; [done|]). done.
    - destruct (invoke_enabled w id I Ht) as (f & Hl & Hi).
      eexists [Invoke], _.
      split; [apply Forall_cons; split; [by right|by apply Forall_nil]|].
      split; [by rewrite runs_cons, Hi|].
      split; [by eapply inv_perform|]. split; [done|]. split; [done|].
      eapply pushed_worker_action; [|exact Hi]. by right.
    - by destruct (running_not_returned w I Hr). }
  destruct (drain_idle (tasks w1) w1 I1 R1 T1 eq_refl)
    as (sched & w' & Hall & Hruns & Hq' & Ht' & Hp').
  exists (pre ++ sched), w'. split; [by apply Forall_app|].
  assert (runs (pre ++ sched) w = Some w') as Hr'.
  { by rewrite (runs_app _ _ _ _ Hr1). }
  split; [done|].
  pose proof (inv_runs _ _ _ I Hr') as I'.
  rewrite <- P1, <- Hp', (inv_queue w' I'), (inv_flight w' I'), Hq'.
  unfold in_flight. rewrite Ht'. by rewrite !app_nil_r.
Qed.

(** *** After [running] is cleared *)

Lemma stopped_perform (a : action) (w w' : t) :
  running w = false -> perform a w = Some w' ->
  running w' = false /\ exists more, tasks w' = tasks w ++ more.
Proof.
  intros Hr H. destruct a; simpl in H.
  - simplify_eq. simpl. eauto.
  - destruct (thr w); try done. rewrite Hr in H. simplify_eq. simpl.
    split; [done|]. exists []. by rewrite app_nil_r.
  - destruct (thr w) as [|id|]; try done.
    destruct (pool w !! id) as [[f [o|]]|]; try done.
    simplify_eq. simpl. split; [done|]. exists []. by rewrite app_nil_r.
  - simplify_eq. simpl. split; [done|]. exists []. by rewrite app_nil_r.
  - destruct (thr w); try done. simplify_eq. simpl.
    split; [done|]. exists []. by rewrite app_nil_r.
Qed.

Lemma stopped_runs (sched : list action) (w w' : t) :
  running w = false -> runs sched w = Some w' ->
  running w' = false /\ exists more, tasks w' = tasks w ++ more.
Proof.
  revert w. induction sched as [|a rest IH]; simpl; intros w Hr H.
  - simplify_eq. split; [done|]. exists []. by rewrite app_nil_r.
  - destruct (perform a w) as [w1|] eqn:Ha; [|done].
    destruct (stopped_perform _ _ _ Hr Ha) as [Hr1 [m1 Hq1]].
    destruct (IH _ Hr1 H) as [Hr' [m2 Hq2]].
    split; [done|]. exists (m1 ++ m2). by rewrite Hq2, Hq1, (assoc_L (++)).
Qed.


(** Only the destructor clears [running]. *)
Lemma running_cleared_by_stop (sched : list action) (w w' : t) :
  running w = true -> runs sched w = Some w' -> running w' = false ->
  Stop ∈ sched.
Proof.
  revert w. induction sched as [|a rest IH]; simpl; intros w Hr H Hr'.
  - injection H as ->. congruence.
  - destruct (perform a w) as [w1|] eqn:Ha; [|done].
    destruct (decide (running w1 = true)) as [Hr1|Hr1].
    + apply elem_of_cons. right. by eapply IH.
    + apply elem_of_cons. left. destruct a; simpl in Ha; try done.
      * simplify_eq; simpl in *; congruence.
      * destruct (thr w); try done. rewrite Hr in Ha.
        destruct (tasks w); [done|]. by simplify_eq.
      * destruct (thr w) as [|id|]; try done.
        destruct (pool w !! id) as [[f [o|]]|]; try done.
        simplify_eq; simpl in *; congruence.
      * destruct (thr w); try done. simplify_eq; simpl in *; congruence.
Qed.





(** *** What a fulfilled future has seen *)

Lemma spawn_lookup (f : callable) (w : t) :
  pool (fst (spawn f w)) !! next_id w = Some (PackagedTask f None).
Proof. simpl. unfold next_id. by rewrite lookup_app_r, Nat.sub_diag. Qed.

(** One action either leaves a packaged task that was not invoked as it is,
    or it is the call of that very task by the worker thread. *)
Lemma perform_task (a : action) (w w1 : t) (id : nat) (f : callable) :
  pool w !! id = Some (PackagedTask f None) -> perform a w = Some w1 ->
  (exists e, trace w1 = trace w ++ [e]) /\
  (pool w1 !! id = Some (PackagedTask f None) \/
   (a = Invoke /\ thr w = Calling id /\
    trace w1 = trace w ++ [Completed id] /\
    world w1 = snd (f (world w)) /\
    pool w1 !! id = Some (PackagedTask f (Some (fst (f (world w))))))).
Proof.
  intros Hl H. destruct a; simpl in H.
  - simplify_eq. simpl. split; [by eexists|]. left.
    by apply lookup_app_l_Some.
  - destruct (thr w); try done. destruct (running w).
    + destruct (tasks w); [done|]. simplify_eq. simpl.
      split; [by eexists|]. by left.
    + simplify_eq. simpl. split; [by eexists|]. by left.
  - destruct (thr w) as [|id0|] eqn:Ht; try done.
    destruct (pool w !! id0) as [[g [o|]]|] eqn:Hp; try done.
    simplify_eq. simpl. split; [by eexists|].
    destruct (decide (id0 = id)) as [->|Hne].
    + right. rewrite Hp in Hl. simplify_eq.
      do 4 (split; [done|]).
      apply list_lookup_insert_eq. by eapply lookup_lt_Some.
    + left. by rewrite list_lookup_insert_ne.
  - simplify_eq. simpl. split; [by eexists|]. by left.
  - destruct (thr w); try done. simplify_eq. simpl.
    split; [by eexists|]. by left.
Qed.

(** When [get()] returns, the last thing that happened is the call of the
    task, and the world is the one that call left. *)
Lemma await_last (fuel : nat) :
  forall (w w' : t) (id : nat) (f : callable),
    pool w !! id = Some (PackagedTask f None) ->
    await fuel id w = Some w' ->
    exists wd pre,
      trace w' = trace w ++ pre ++ [Completed id] /\
      world w' = snd (f wd) /\
      future_get id w' = Some (fst (f wd)).
Proof.
  induction fuel as [|k IH]; intros w w' id f Hl H; simpl in H;
    unfold future_get at 1 in H; rewrite Hl in H; simpl in H; [done|].
  destruct (threadFunc_step w) as [w1|] eqn:Hs; [|done].
  apply threadFunc_step_perform in Hs as [a Ha].
  destruct (perform_task a w w1 id f Hl Ha)
    as [[e He] [Hkeep|(_ & _ & Htr & Hw & Hl1)]].
  - destruct (IH _ _ _ _ Hkeep H) as (wd & pre & Htr' & Hw' & Hg').
    exists wd, (e :: pre). split; [|done].
    rewrite Htr', He. by rewrite <- (assoc_L (++)).
  - assert (future_get id w1 = Some (fst (f (world w)))) as Hg.
    { unfold future_get. by rewrite Hl1. }
    assert (w' = w1) as ->.
    { destruct k; simpl in H; rewrite Hg in H; by simplify_eq. }
    exists (world w), []. by split.
Qed.

(** [run], with what it leaves behind. *)
Lemma run_spec (f : callable) (w : t) :
  inv w -> running w = true ->
  exists wd pre w',
    run f w = Some (fst (f wd), w') /\ inv w' /\
    world w' = snd (f wd) /\
    trace w' = trace w ++ [Pushed (next_id w)] ++ pre
                       ++ [Completed (next_id w)] /\
    running w' = true /\ thr w' = AtLoop /\ tasks w' = [].
Proof.
  intros I Hr.
  destruct (run_live f w I Hr) as (o & w' & Hrun & I' & _ & Hr' & Ht' & Hq').
  unfold run in Hrun. simpl in Hrun.
  destruct (await _ _ _) as [w2|] eqn:Ha; [|done].
  destruct (future_get (next_id w) w2) as [o2|] eqn:Hg; [|done].
  simplify_eq.
  destruct (await_last _ _ _ _ f (spawn_lookup f w) Ha)
    as (wd & pre & Htr & Hw & Hg').
  exists wd, pre, w'. rewrite Hg' in Hg. simplify_eq.
  unfold run. simpl. rewrite Ha, Hg'.
  do 3 (split; [done|]). split; [|done].
  rewrite Htr. simpl. by rewrite <- (assoc_L (++)).
Qed.

Lemma completed_NoDup (w : t) : inv w -> NoDup (completed w).
Proof.
  intros I.
  pose proof (NoDup_seq 0 (length (pool w))) as Hnd.
  rewrite <- (inv_pushed w I), (inv_queue w I), (inv_flight w I) in Hnd.
  apply NoDup_app in Hnd as (Hnd & _).
  by apply NoDup_app in Hnd as (Hnd & _).
Qed.

(** *** The tasks one after the other *)

(** The callables [fs] called in turn on one thread: their outcomes and the
    world they leave. *)
Fixpoint replay (fs : list callable) (wd : World) : list outcome * World :=
  match fs with
  | [] => ([], wd)
  | f :: rest =>
      let r := f wd in
      let r' := replay rest (snd r) in
      (fst r :: fst r', snd r')
  end.

Lemma replay_snoc (fs : list callable) (f : callable) (wd : World) :
  replay (fs ++ [f]) wd =
    (fst (replay fs wd) ++ [fst (f (snd (replay fs wd)))],
     snd (f (snd (replay fs wd)))).
Proof.
  revert wd. induction fs as [|g fs IH]; intros wd; simpl; [done|].
  by rewrite IH.
Qed.

Lemma prefix_of_seq (l r : list nat) (n : nat) :
  l ++ r = seq 0 n -> l = seq 0 (length l).
Proof.
  intros Hl.
  assert (length l <= n) as Hle.
  { apply (f_equal length) in Hl. rewrite length_app, length_seq in Hl. lia. }
  rewrite <- (take_app_length l r) at 1. rewrite Hl, take_seq.
  by rewrite Nat.min_l.
Qed.

Lemma middle_of_seq (l r : list nat) (x n : nat) :
  l ++ x :: r = seq 0 n -> x = length l.
Proof.
  intros Hl.
  pose proof (list_lookup_middle l r x (length l) eq_refl) as Hx.
  rewrite Hl in Hx. by apply lookup_seq in Hx as [-> _].
Qed.

Lemma completed_le (w : t) : inv w -> length (completed w) <= length (pool w).
Proof.
  intros I. pose proof (inv_pushed w I) as Hp.
  rewrite (inv_queue w I), (inv_flight w I) in Hp.
  apply (f_equal length) in Hp. rewrite !length_app, length_seq in Hp. lia.
Qed.

(** The state of a worker, read as a run of its first tasks on one thread:
    the tasks executed so far are the first [k] that were submitted, the
    world is the one they leave when called in that order from [w0], their
    shared states hold the outcomes of those calls, and no other shared state
    is set. *)
Definition serial (w0 : World) (w : t) : Prop :=
  completed w = seq 0 (length (completed w)) /\
  (exists outs,
     replay (stored <$> take (length (completed w)) (pool w)) w0
       = (outs, world w) /\
     shared_state <$> take (length (completed w)) (pool w) = Some <$> outs) /\
  Forall (fun pt => shared_state pt = None)
         (drop (length (completed w)) (pool w)).

Lemma serial_perform (w0 : World) (a : action) (w w' : t) :
  inv w -> serial w0 w -> perform a w = Some w' -> serial w0 w'.
Proof.
  intros I S H. pose proof (completed_le w I) as Hle.
  pose proof (inv_pushed w I) as Hs.
  rewrite (inv_queue w I), (inv_flight w I) in Hs.
  unfold serial, completed, pushed, popped, in_flight in *.
  destruct S as (Hc & (outs & Hrep & Hst) & Hrest).
  destruct a; simpl in H.
  - (* Spawn *)
    simplify_eq. simpl. rewrite omap_app, app_nil_r.
    rewrite take_app_le, drop_app_le by done.
    split; [done|]. split; [by exists outs|].
    apply Forall_app. split; [done|]. by apply Forall_singleton.
  - (* Wake *)
    destruct (thr w); try done. destruct (running w).
    + destruct (tasks w); [done|]. simplify_eq. simpl.
      rewrite omap_app, app_nil_r. split; [done|]. split; [by exists outs|done].
    + simplify_eq. simpl.
      rewrite omap_app, app_nil_r. split; [done|]. split; [by exists outs|done].
  - (* Invoke *)
    destruct (thr w) as [|id|] eqn:Ht; try done.
    destruct (pool w !! id) as [[f [o|]]|] eqn:Hp; try done.
    simplify_eq.
    assert (id = length (omap completed_id (trace w))) as ->.
    { rewrite <- !(assoc_L (++)) in Hs. simpl in Hs.
      by eapply middle_of_seq. }
    pose proof (lookup_lt_Some _ _ _ Hp) as Hlt.
    simpl. rewrite omap_app. simpl.
    rewrite length_app, Nat.add_1_r.
    split.
    { rewrite seq_S. simpl. by rewrite <- Hc. }
    rewrite (take_S_r _ _ (PackagedTask f (Some (fst (f (world w))))))
      by (by apply list_lookup_insert_eq).
    rewrite take_insert_ge by done.
    rewrite drop_insert_lt by lia.
    split.
    + exists (outs ++ [fst (f (world w))]).
      rewrite !fmap_app. simpl. rewrite replay_snoc, Hrep. simpl.
      by rewrite Hst.
    + rewrite (drop_S _ _ _ Hp) in Hrest.
      by apply Forall_cons in Hrest as [_ Hrest].
  - (* Stop *)
    simplify_eq. simpl.
    rewrite omap_app, app_nil_r. split; [done|]. split; [by exists outs|done].
  - (* Join *)
    destruct (thr w); try done. simplify_eq. simpl.
    rewrite omap_app, app_nil_r. split; [done|]. split; [by exists outs|done].
Qed.

Lemma serial_runs (w0 : World) (sched : list action) (w w' : t) :
  inv w -> serial w0 w -> runs sched w = Some w' -> serial w0 w'.
Proof.
  revert w. induction sched as [|a rest IH]; simpl; intros w I S H.
  - by simplify_eq.
  - destruct (perform a w) as [w1|] eqn:Ha; [|done].
    eauto using inv_perform, serial_perform.
Qed.

(** The worker thread replaces no callable: its actions only set shared
    states. *)
Lemma stored_worker_action (a : action) (w w' : t) :
  worker_action a -> perform a w = Some w' ->
  stored <$> pool w' = stored <$> pool w.
Proof.
  intros [->| ->] H; simpl in H.
  - destruct (thr w); try done. destruct (running w).
    + destruct (tasks w); [done|]. by simplify_eq.
    + by simplify_eq.
  - destruct (thr w) as [|id|]; try done.
    destruct (pool w !! id) as [[f [o|]]|] eqn:Hp; try done.
    simplify_eq. simpl. rewrite list_fmap_insert. simpl.
    apply list_insert_id. by rewrite list_lookup_fmap, Hp.
Qed.

Lemma stored_worker_runs (sched : list action) (w w' : t) :
  Forall worker_action sched -> runs sched w = Some w' ->
  stored <$> pool w' = stored <$> pool w.
Proof.
  revert w. induction sched as [|a rest IH]; simpl; intros w Hall H.
  - by simplify_eq.
  - apply Forall_cons in Hall as [Ha Hrest].
    destruct (perform a w) as [w1|] eqn:Hp; [|done].
    rewrite (IH w1 Hrest H). by eapply stored_worker_action.
Qed.

(** *** Blocking submission *)

(** C1 (blocking correctness).  For a worker in any state a schedule can
    reach, still running, and a callable [f] that touches nothing and returns
    [v]: [run f] comes back, and with [Value v]; and whatever the threads do
    after the task is queued, the only outcome [get()] can deliver for it is
    [Value v]. *)
Theorem run_returns_work_value
    (w0 : World) (sched : list action) (w : t) (f : callable) (v : T) :
  runs sched (init w0) = Some w -> running w = true -> pure_work f v ->
  (exists w', run f w = Some (Value v, w')) /\
  (forall sched' w'' o,
     runs sched' (fst (spawn f w)) = Some w'' ->
     future_get (snd (spawn f w)) w'' = Some o -> o = Value v).
Proof.
  intros Hreach Hr Hpure.
  pose proof (inv_runs _ _ _ (inv_init w0) Hreach) as I.
  split.
  - destruct (run_live f w I Hr) as (o & w' & Hrun & _ & [wd Ho] & _).
    exists w'. rewrite Hrun, Ho. by rewrite Hpure.
  - intros sched' w'' o Hruns Hget.
    pose proof (inv_perform _ _ _ I (spawn_perform f w)) as I1.
    pose proof (inv_runs _ _ _ I1 Hruns) as I2.
    destruct (extends_runs _ _ _ Hruns (next_id w) (PackagedTask f None))
      as (pt' & Hl' & Hst & _).
    { simpl. unfold next_id. by rewrite lookup_app_r, Nat.sub_diag. }
    unfold future_get in Hget. simpl in Hget. rewrite Hl' in Hget.
    destruct (inv_sound w'' I2 _ _ _ Hl' Hget) as [wd Hwd].
    rewrite Hwd, Hst. simpl. by rewrite Hpure.
Qed.

(** *** First in, first out *)

(** C2 (FIFO ordering).  In every state that a schedule of caller and worker
    actions reaches: the tasks are numbered in the order [spawn] queued them;
    that order is the order of execution so far, followed by the task being
    executed, followed by the deque from head to tail; the tasks executed so
    far have been called, one after the other in that order, each in the
    world the one before it left, and their futures hold the outcomes of
    those calls; a wake cycle of the running worker removes exactly the head
    of the deque and calls exactly that task, in the current world, and puts
    its outcome into its future; and the worker, left to run, calls every
    submitted task, in submission order. *)
Theorem fifo_execution_order (w0 : World) (sched : list action) (w : t) :
  runs sched (init w0) = Some w ->
  pushed w = seq 0 (length (pool w)) /\
  pushed w = completed w ++ in_flight w ++ tasks w /\
  (exists outs,
     replay (stored <$> take (length (completed w)) (pool w)) w0
       = (outs, world w) /\
     shared_state <$> take (length (completed w)) (pool w) = Some <$> outs) /\
  (forall id rest,
     running w = true -> thr w = AtLoop -> tasks w = id :: rest ->
     exists f w1 w2,
       pool w !! id = Some (PackagedTask f None) /\
       perform Wake w = Some w1 /\ perform Invoke w1 = Some w2 /\
       tasks w1 = rest /\ in_flight w1 = [id] /\ world w1 = world w /\
       tasks w2 = rest /\ in_flight w2 = [] /\
       completed w2 = completed w ++ [id] /\
       world w2 = snd (f (world w)) /\
       future_get id w2 = Some (fst (f (world w)))) /\
  (running w = true ->
   exists more w',
     Forall worker_action more /\ runs more w = Some w' /\
     completed w' = pushed w /\
     stored <$> pool w' = stored <$> pool w /\
     exists outs,
       replay (stored <$> pool w) w0 = (outs, world w') /\
       shared_state <$> pool w' = Some <$> outs).
Proof.
  intros Hreach.
  pose proof (inv_runs _ _ _ (inv_init w0) Hreach) as I.
  assert (serial w0 (init w0)) as S0.
  { unfold serial. simpl. split; [done|]. split; [by exists []|done]. }
  pose proof (serial_runs _ _ _ _ (inv_init w0) S0 Hreach) as S.
  split; [apply (inv_pushed w I)|].
  split; [by rewrite (inv_queue w I), (inv_flight w I), (assoc_L (++))|].
  split; [apply S|].
  split.
  - intros id rest Hr Ht Hq.
    destruct (wake_cycle w id rest I Hr Ht Hq)
      as (f & w1 & w2 & Hl & Hw & Hi & E1 & E2).
    exists f, w1, w2. do 3 (split; [done|]). subst w1 w2.
    unfold in_flight, completed, future_get. simpl.
    rewrite omap_app, list_lookup_insert_eq by (by eapply lookup_lt_Some).
    by repeat split.
  - intros Hr.
    destruct (drain w I Hr) as (more & w' & Hall & Hruns & Hc).
    pose proof (stored_worker_runs _ _ _ Hall Hruns) as Hst.
    exists more, w'. do 4 (split; [done|]).
    pose proof (serial_runs _ _ _ _ I S Hruns) as (_ & (outs & Hrep & Hout) & _).
    assert (length (completed w') = length (pool w')) as Hlen.
    { rewrite Hc, (inv_pushed w I), length_seq.
      apply (f_equal length) in Hst. by rewrite !length_fmap in Hst. }
    rewrite Hlen, firstn_all in Hrep, Hout.
    exists outs. by rewrite <- Hst.
Qed.

(** *** A task that throws *)

(** C3 (failure capture).  A callable that throws [e]: [run] hands [Thrown e]
    to its caller; the worker thread is then back at the top of its loop, with
    [running] still set, and serves the next [run]; and in whatever follows
    the thread leaves [threadFunc] only after the destructor has cleared
    [running]. *)
Theorem task_failure_is_captured
    (w0 : World) (sched : list action) (w : t) (f : callable) (e : Exn) :
  runs sched (init w0) = Some w -> running w = true ->
  (forall wd, fst (f wd) = Thrown e) ->
  exists w',
    run f w = Some (Thrown e, w') /\
    running w' = true /\ thr w' = AtLoop /\
    (forall g v, pure_work g v -> exists w'', run g w' = Some (Value v, w'')) /\
    (forall sched' w'',
       runs sched' w' = Some w'' -> thr w'' = Returned -> Stop ∈ sched').
Proof.
  intros Hreach Hr Hthrow.
  pose proof (inv_runs _ _ _ (inv_init w0) Hreach) as I.
  destruct (run_live f w I Hr) as (o & w' & Hrun & I' & [wd Ho] & Hr' & Ht' & _).
  exists w'. rewrite Hrun, Ho, Hthrow.
  split; [done|]. split; [done|]. split; [done|]. split.
  - intros g v Hpure.
    destruct (run_live g w' I' Hr') as (o' & w'' & Hrun' & _ & [wd' Ho'] & _).
    exists w''. rewrite Hrun', Ho'. by rewrite Hpure.
  - intros sched' w'' Hruns Hret.
    pose proof (inv_runs _ _ _ I' Hruns) as I''.
    eapply running_cleared_by_stop; [exact Hr'|exact Hruns|].
    by apply (inv_exit w'' I'').
Qed.

(** *** Destruction *)


(** *** The effect of the tasks *)

(** X1 (serial effect).
    Whatever the threads do, the worker has done what one thread would have
    done calling the tasks in the order of their submission: the tasks
    executed so far are the first [k] submitted, the world is the one that
    calling them in that order leaves, each of their futures holds the
    outcome its task had in that run, and the futures of all later tasks are
    empty. *)
Theorem tasks_take_effect_in_submission_order
    (w0 : World) (sched : list action) (w : t) :
  runs sched (init w0) = Some w ->
  completed w = seq 0 (length (completed w)) /\
  (exists outs,
     replay (stored <$> take (length (completed w)) (pool w)) w0
       = (outs, world w) /\
     shared_state <$> take (length (completed w)) (pool w) = Some <$> outs) /\
  Forall (fun pt => shared_state pt = None)
         (drop (length (completed w)) (pool w)).
Proof.
  intros Hruns.
  apply (serial_runs w0 sched (init w0)); [apply inv_init| |done].
  unfold serial. simpl. split; [done|]. split; [by exists []|done].
Qed.

(** *** The worker thread never fails and never idles on work *)

(** X2 (progress of the worker thread).
    In every state a schedule reaches, the worker thread has no action to
    take exactly when it has left [threadFunc] or when it waits on an empty
    deque with [running] set: the call at line 92 always goes through (no
    packaged task is invoked twice), a non-empty deque is always served, and
    a cleared [running] is always seen.  No task is executed twice. *)
Theorem worker_blocks_only_when_idle
    (w0 : World) (sched : list action) (w : t) :
  runs sched (init w0) = Some w ->
  (threadFunc_step w = None <->
   thr w = Returned \/ (thr w = AtLoop /\ running w = true /\ tasks w = [])) /\
  NoDup (completed w).
Proof.
  intros Hruns.
  pose proof (inv_runs _ _ _ (inv_init w0) Hruns) as I.
  split; [|by apply completed_NoDup].
  unfold threadFunc_step. split.
  - destruct (thr w) as [|id|] eqn:Ht.
    + simpl. rewrite Ht. destruct (running w); [|done].
      destruct (tasks w); [|done]. intros _. by right.
    + destruct (invoke_enabled w id I Ht) as (f & _ & Hi).
      rewrite Hi. done.
    + intros _. by left.
  - intros [Ht|(Ht & Hr & Hq)]; rewrite Ht; [done|].
    simpl. by rewrite Ht, Hr, Hq.
Qed.

(** *** A future is set once *)

(** X3 (futures are final).
    Once [get()] can return an outcome for a task, it returns that same
    outcome after anything the threads do later. *)
Theorem fulfilled_future_is_final
    (sched : list action) (w w' : t) (id : nat) (o : outcome) :
  runs sched w = Some w' -> future_get id w = Some o ->
  future_get id w' = Some o.
Proof.
  intros Hruns Hget. unfold future_get in *.
  destruct (pool w !! id) as [pt|] eqn:Hl; [|done].
  destruct (extends_runs _ _ _ Hruns id pt Hl) as (pt' & Hl' & _ & Hkeep).
  rewrite Hl', Hkeep; [done|]. rewrite Hget. by eexists.
Qed.

(** *** Submitting to a worker that is shutting down *)

(** X4 (submission after the stop).
    A task submitted after [running] has been cleared is never executed:
    [run] does not come back, and under every schedule the task stays in the
    deque with its future empty. *)
Theorem task_spawned_after_stop_never_runs
    (w0 : World) (sched : list action) (w : t) (f : callable) :
  runs sched (init w0) = Some w -> running w = false ->
  run f w = None /\
  (forall sched' w',
     runs sched' (fst (spawn f w)) = Some w' ->
     next_id w ∈ tasks w' /\ (next_id w ∉ completed w') /\
     future_get (next_id w) w' = None).
Proof.
  intros Hreach Hr.
  pose proof (inv_runs _ _ _ (inv_init w0) Hreach) as I.
  pose proof (inv_perform _ _ _ I (spawn_perform f w)) as I1.
  assert (forall sched' w',
            runs sched' (fst (spawn f w)) = Some w' ->
            next_id w ∈ tasks w' /\ (next_id w ∉ completed w') /\
            future_get (next_id w) w' = None) as Hnever.
  { intros sched' w' Hruns.
    pose proof (inv_runs _ _ _ I1 Hruns) as I'.
    destruct (stopped_runs sched' (fst (spawn f w)) w' Hr Hruns)
      as [_ [more Hq]].
    assert (next_id w ∈ tasks w') as Hin.
    { rewrite Hq. simpl. rewrite elem_of_app. left. apply elem_of_snoc_eq. }
    split; [done|].
    assert (future_get (next_id w) w' = None) as Hnone.
    { apply future_get_queued; [done|]. apply elem_of_app. by right. }
    split; [|done].
    intros Hc. unfold future_get in Hnone.
    destruct (pool w' !! next_id w) as [pt|] eqn:Hl.
    - apply (inv_done w' I' _ _ Hl) in Hc as [o Ho]. congruence.
    - apply completed_lt in Hc; [|done].
      apply lookup_ge_None in Hl. lia. }
  split; [|done].
  destruct (run f w) as [[o w2]|] eqn:Hrun; [|done].
  unfold run in Hrun. simpl in Hrun.
  destruct (await _ _ _) as [w3|] eqn:Ha; [|done].
  destruct (future_get (next_id w) w3) as [o3|] eqn:Hg; [|done].
  apply await_runs in Ha as [sched' Hruns].
  destruct (Hnever _ _ Hruns) as (_ & _ & Hnone). congruence.
Qed.

(** *** An idle worker *)


(** The destructor on a worker whose thread is at the top of its loop. *)
Lemma destroy_idle (w : t) :
  thr w = AtLoop ->
  destroy w =
    Some (Build false (tasks w) (pool w) Returned (world w)
                (trace w ++ [StopSet; ThreadExit; Joined])).
Proof.
  intros Ht. unfold destroy. simpl. rewrite Ht. simpl.
  unfold threadFunc_step. simpl. rewrite ?Ht. simpl.
  by rewrite <- !(assoc_L (++)).
Qed.

(** The invariant does not look at the world. *)
Lemma inv_world (w : t) (wd : World) :
  inv w ->
  inv (Build (running w) (tasks w) (pool w) (thr w) wd (trace w)).
Proof. intros [I1 I2 I3 I4 I5 I6 I7]. by split. Qed.






End Worker.

(** *** The theorems at work *)

(** A world that is a counter, and tasks that read and bump it. *)
Definition bump : @callable Z Empty_set Z :=
  fun n => (Value n, (n + 1)%Z).

Definition four : @callable Z Empty_set Z :=
  fun n => (Value (2 + 2)%Z, n).

(** Two tasks queued by other threads, the worker in the middle of the first
    one: [run] of a callable returning [2 + 2] returns [4]. *)
Lemma run_returns_work_value_witness :
  exists w, runs [Spawn bump; Spawn bump; Wake] (init 0%Z) = Some w /\
    exists w', run four w = Some (Value 4%Z, w').
Proof.
  eexists. split; [reflexivity|].
  refine (proj1 (run_returns_work_value 0%Z [Spawn bump; Spawn bump; Wake]
                   _ four 4%Z _ _ _)).
  - reflexivity.
  - reflexivity.
  - intros wd. reflexivity.
Defined.

(** Three tasks submitted while the worker is already at work; each returns
    the counter it found and increments it.  Left to run, the worker hands
    them [0], [1] and [2] in the order of submission. *)
Lemma fifo_execution_order_witness :
  exists w,
    (runs [Spawn bump; Spawn bump; Wake; Spawn bump; Invoke; Wake] (init 0%Z)
      = Some w) /\
    pushed w = [0; 1; 2] /\ completed w = [0] /\ in_flight w = [1] /\
    tasks w = [2] /\ world w = 1%Z /\
    pushed w = completed w ++ in_flight w ++ tasks w /\
    exists more w',
      runs more w = Some w' /\ completed w' = [0; 1; 2] /\ world w' = 3%Z /\
      shared_state <$> pool w' =
        [Some (Value 0%Z); Some (Value 1%Z); Some (Value 2%Z)].
Proof.
  eexists. split; [reflexivity|].
  do 5 (split; [reflexivity|]).
  edestruct (fifo_execution_order 0%Z
               [Spawn bump; Spawn bump; Wake; Spawn bump; Invoke; Wake]
               _ eq_refl) as (_ & Hq & _ & _ & Hdrain).
  split; [exact Hq|].
  destruct (Hdrain eq_refl)
    as (more & w' & _ & Hruns & Hc & _ & outs & Hrep & Hout).
  exists more, w'. split; [exact Hruns|]. split; [exact Hc|].
  vm_compute in Hrep. injection Hrep as <- Hw.
  split; [symmetry; exact Hw|exact Hout].
Defined.

Definition failing : @callable Z string Z :=
  fun n => (Thrown "boom"%string, n).

Lemma task_failure_is_captured_witness :
  exists w',
    run failing (init 0%Z) = Some (Thrown "boom"%string, w') /\
    running w' = true /\ thr w' = AtLoop.
Proof.
  destruct (task_failure_is_captured 0%Z [] (init 0%Z) failing "boom"%string)
    as (w' & H1 & H2 & H3 & _).
  - reflexivity.
  - reflexivity.
  - intros wd. reflexivity.
  - exists w'. split; [exact H1|]. split; [exact H2|exact H3].
Defined.


(** Three tasks that read and bump a counter started at 5, the third one
    submitted while the first is being executed: the first two have seen 5
    and 6, as in a run on one thread, and the counter is at 7. *)
Lemma tasks_take_effect_in_submission_order_witness :
  exists w,
    (runs [Spawn bump; Spawn bump; Wake; Spawn bump; Invoke; Wake; Invoke]
          (init 5%Z) = Some w) /\
    world w = 7%Z /\
    future_get 0 w = Some (Value 5%Z) /\
    future_get 1 w = Some (Value 6%Z) /\
    future_get 2 w = None /\
    exists outs, replay [bump; bump] 5%Z = (outs, world w).
Proof.
  eexists. split; [reflexivity|].
  do 4 (split; [reflexivity|]).
  destruct (tasks_take_effect_in_submission_order 5%Z
              [Spawn bump; Spawn bump; Wake; Spawn bump; Invoke; Wake; Invoke]
              _ eq_refl) as (_ & (outs & Hrep & _) & _).
  exists outs. exact Hrep.
Defined.

(** With its one task executed the worker thread waits. *)
Lemma worker_blocks_only_when_idle_witness :
  exists w,
    runs [Spawn bump; Wake; Invoke] (init 0%Z) = Some w /\
    threadFunc_step w = None.
Proof.
  eexists. split; [reflexivity|].
  apply (proj1 (worker_blocks_only_when_idle 0%Z [Spawn bump; Wake; Invoke]
                  _ eq_refl)).
  right. split; [reflexivity|]. split; reflexivity.
Defined.

(** The worker after its one task. *)
Definition after_one : @t Z Empty_set Z :=
  match runs [Spawn bump; Wake; Invoke] (init 0%Z) with
  | Some w => w
  | None => init 0%Z
  end.

(** A future that is set stays as it is through a submission and the
    shutdown. *)
Lemma fulfilled_future_is_final_witness :
  runs [Spawn bump; Wake; Invoke] (init 0%Z) = Some after_one /\
  exists w',
    runs [Spawn bump; Stop; Wake; Join] after_one = Some w' /\
    future_get 0 w' = Some (Value 0%Z).
Proof.
  split; [reflexivity|].
  eexists. split; [reflexivity|].
  apply (fulfilled_future_is_final [Spawn bump; Stop; Wake; Join] after_one _ 0
           (Value 0%Z)); reflexivity.
Defined.

(** [run] on a worker whose [running] is cleared. *)
Lemma task_spawned_after_stop_never_runs_witness :
  exists w,
    runs [Spawn bump; Stop] (init 0%Z) = Some w /\
    run four w = None.
Proof.
  eexists. split; [reflexivity|].
  apply (task_spawned_after_stop_never_runs 0%Z [Spawn bump; Stop] _ four);
    reflexivity.
Defined.

End Worker.

(** ** The embedded runtime *)

(** [float]: IEEE binary32, with the arithmetic of the Standard Library's
    [SpecFloat] at precision 24 and maximal exponent 128. *)
Definition float32 : Type := spec_float.
Definition f32_mul (x y : float32) : float32 := SFmul 24 128 x y.

(** [-1.0f] and [-3.0f]. *)
Definition f32_minus_one : float32 := S754_finite true 8388608 (-23).
Definition f32_minus_three : float32 := S754_finite true 12582912 (-22).

(** The two characters that the source writes as escapes. *)
Definition dq : string := String (Ascii.ascii_of_nat 34) EmptyString.
Definition nl : string := String (Ascii.ascii_of_nat 10) EmptyString.

(** The part of the C interface of libjulia that the plugin calls.  The
    library is not part of the repository: its state and its boxed values are
    left abstract, and every theorem below holds for whatever the library
    does.  [jl_value] stands for [jl_value_t*], [jl_function_t*] and
    [jl_module_t*] alike, the null pointer included.  [jl_typeis_float32 v]
    is [jl_typeis(v, jl_float32_type)]; it and [jl_unbox_float32] read what
    the pointer refers to, and on the null pointer their value here stands
    for whatever that read does. *)
Class LibJulia : Type := {
  jl_state : Type;
  jl_value : Type;
  jl_null : jl_value;
  jl_is_null : jl_value -> bool;
  jl_init : jl_state -> jl_state;
  jl_atexit_hook : Z -> jl_state -> jl_state;
  jl_eval_string : string -> jl_state -> jl_value * jl_state;
  jl_get_function : jl_value -> string -> jl_state -> jl_value * jl_state;
  jl_box_float32 : float32 -> jl_state -> jl_value * jl_state;
  jl_call1 : jl_value -> jl_value -> jl_state -> jl_value * jl_state;
  jl_exception_occurred : jl_state -> jl_value;
  jl_typeof_str : jl_value -> string;
  jl_typeis_float32 : jl_value -> bool;
  jl_unbox_float32 : jl_value -> float32
}.

(** A stand-in for the library, to run the plugin on: a runtime whose state
    is the pending exception.  A script with an odd number of quotes does not
    parse, [error(...)] raises, [include(...)] gives a module, and a module
    has the functions [db_to_coef] (answers [0.708f]), [as_int] (answers an
    [Int64]) and [raises]. *)
Module Stub.

Inductive value : Type :=
| Null
| Nothing
| Float32 (x : float32)
| Int64 (n : Z)
| Function (name : string)
| AModule
| Error (kind : string).

Definition is_null (v : value) : bool :=
  match v with Null => true | _ => false end.

(** The [float] nearest to 0.708, and [0.0f]. *)
Definition coef_0708 : float32 := S754_finite false 11878269 (-24).
Definition zero : float32 := S754_zero false.

Fixpoint count_quotes (s : string) : nat :=
  match s with
  | EmptyString => 0
  | String c rest =>
      (if Ascii.eqb c (Ascii.ascii_of_nat 34) then 1 else 0) + count_quotes rest
  end.

Definition eval_string (s : string) (exc : value) : value * value :=
  if Nat.even (count_quotes s) then
    if String.prefix "error(" s then (Null, Error "ErrorException")
    else if String.prefix "include(" s then (AModule, Null)
    else (Nothing, Null)
  else (Null, Error "Base.Meta.ParseError").

Definition get_function (m : value) (name : string) (exc : value)
  : value * value :=
  match m with
  | AModule => (Function name, exc)
  | _ => (Null, exc)
  end.

Definition call1 (f arg : value) (exc : value) : value * value :=
  match f, arg with
  | Function name, Float32 x =>
      if String.eqb name "db_to_coef" then (Float32 coef_0708, Null)
      else if String.eqb name "as_int" then (Int64 1, Null)
      else if String.eqb name "raises" then (Null, Error "DomainError")
      else (Null, Error "UndefVarError")
  | _, _ => (Null, Error "MethodError")
  end.

Definition typeof_str (v : value) : string :=
  match v with
  | Null => "NULL"
  | Nothing => "Nothing"
  | Float32 _ => "Float32"
  | Int64 _ => "Int64"
  | Function _ => "Function"
  | AModule => "Module"
  | Error kind => kind
  end.

Definition typeis_float32 (v : value) : bool :=
  match v with Float32 _ => true | _ => false end.

Definition unbox_float32 (v : value) : float32 :=
  match v with Float32 x => x | _ => zero end.

#[export] Instance runtime : LibJulia := {|
  jl_state := value;
  jl_value := value;
  jl_null := Null;
  jl_is_null := is_null;
  jl_init := fun _ => Null;
  jl_atexit_hook := fun _ exc => exc;
  jl_eval_string := eval_string;
  jl_get_function := get_function;
  jl_box_float32 := fun x exc => (Float32 x, exc);
  jl_call1 := call1;
  jl_exception_occurred := fun exc => exc;
  jl_typeof_str := typeof_str;
  jl_typeis_float32 := typeis_float32;
  jl_unbox_float32 := unbox_float32
|}.

End Stub.

Module Julia.
Section Julia.

Context `{LibJulia}.

(** The calls made into the runtime, in the order they are made. *)
Inductive api_call : Type :=
| CallInit
| CallAtExitHook (status : Z)
| CallEvalString (s : string)
| CallGetFunction (name : string)
| CallBoxFloat32 (x : float32)
| CallCall1 (f arg : jl_value).

Inductive printf_arg : Type :=
| ArgString (s : string)
| ArgFloat (x : float32).

(** One call of [printf]: the format and the arguments. *)
Record printed : Type := Printf {
  format : string;
  arguments : list printf_arg
}.

(** What the tasks act on: the runtime, and what the process has printed. *)
Record world : Type := World {
  rt : jl_state;
  calls : list api_call;
  stdout : list printed
}.

Definition printf (fmt : string) (args : list printf_arg) (w : world) : world :=
  World (rt w) (calls w) (stdout w ++ [Printf fmt args]).

Definition init (w : world) : world :=
  World (jl_init (rt w)) (calls w ++ [CallInit]) (stdout w).

Definition atexit_hook (status : Z) (w : world) : world :=
  World (jl_atexit_hook status (rt w)) (calls w ++ [CallAtExitHook status])
        (stdout w).

Definition eval_string (s : string) (w : world) : jl_value * world :=
  let r := jl_eval_string s (rt w) in
  (fst r, World (snd r) (calls w ++ [CallEvalString s]) (stdout w)).

Definition get_function (m : jl_value) (name : string) (w : world)
  : jl_value * world :=
  let r := jl_get_function m name (rt w) in
  (fst r, World (snd r) (calls w ++ [CallGetFunction name]) (stdout w)).

Definition box_float32 (x : float32) (w : world) : jl_value * world :=
  let r := jl_box_float32 x (rt w) in
  (fst r, World (snd r) (calls w ++ [CallBoxFloat32 x]) (stdout w)).

Definition call1 (f arg : jl_value) (w : world) : jl_value * world :=
  let r := jl_call1 f arg (rt w) in
  (fst r, World (snd r) (calls w ++ [CallCall1 f arg]) (stdout w)).

(** [jl_exception_occurred()] used as a condition. *)
Definition exception_occurred (w : world) : bool :=
  negb (jl_is_null (jl_exception_occurred (rt w))).

(** What the closures given to [run] return in this program: nothing, a
    pointer into the runtime, or a [float]. *)
Inductive result : Type :=
| RVoid
| RPointer (v : jl_value)
| RFloat (x : float32).

(** No closure of the program throws. *)
Definition task : Type := @Worker.callable world Empty_set result.
Definition worker : Type := @Worker.t world Empty_set result.

Definition start_script : string := "println(" +:+ dq +:+ "JULIA  START" +:+ dq +:+ ")".
Definition end_script : string := "println(" +:+ dq +:+ "JULIA END" +:+ dq +:+ ")".

(** The closure of the constructor. *)
Definition start_task : task :=
  fun w =>
    let w1 := init w in
    let w2 := snd (eval_string start_script w1) in
    (Worker.Value RVoid, w2).

(** The closure of the destructor. *)
Definition end_task : task :=
  fun w =>
    let w1 := snd (eval_string end_script w) in
    let w2 := atexit_hook 0 w1 in
    (Worker.Value RVoid, w2).

(** The closure of the overload of [run] that takes a script. *)
Definition script_task (s : string) : task :=
  fun w => (Worker.Value RVoid, snd (eval_string s w)).

(** The function-local [static Julia instance]: not yet constructed,
    constructed, or destroyed at exit.  While it exists the world is the one
    its worker's tasks act on. *)
Inductive process : Type :=
| Fresh (w : world)
| Live (j : worker)
| Gone (j : worker).

(** [Julia()]: the member [worker] is constructed, then the body runs the
    start closure on it and waits. *)
Definition construct (w : world) : option worker :=
  match Worker.run start_task (Worker.init w) with
  | Some (_, j) => Some j
  | None => None
  end.

(** [instance()].  The language runs the initialisation of a local static
    once, and makes every other thread that reaches the declaration wait
    until it is complete: an access is one step of the process. *)
Definition instance (p : process) : option process :=
  match p with
  | Fresh w =>
      match construct w with
      | Some j => Some (Live j)
      | None => None
      end
  | Live j => Some (Live j)
  | Gone j => Some (Gone j)
  end.

(** [Julia::run(f)] is [instance().worker.run(f)]; nothing is defined for a
    worker that has been destroyed. *)
Definition run (f : task) (p : process)
  : option (@Worker.outcome Empty_set result * process) :=
  match instance p with
  | Some (Live j) =>
      match Worker.run f j with
      | Some (o, j') => Some (o, Live j')
      | None => None
      end
  | _ => None
  end.

(** [Julia::spawn(f)]: the process and the handle of the packaged task. *)
Definition spawn (f : task) (p : process) : option (process * nat) :=
  match instance p with
  | Some (Live j) => Some (Live (fst (Worker.spawn f j)), snd (Worker.spawn f j))
  | _ => None
  end.

(** [Julia::run(s)] for a script [s]. *)
Definition run_script (s : string) (p : process) : option process :=
  match run (script_task s) p with
  | Some (_, p') => Some p'
  | None => None
  end.

(** [~Julia()], run at exit when the static was constructed: the body runs
    the end closure and waits, then the member [worker] is destroyed. *)
Definition destroy (p : process) : option process :=
  match p with
  | Live j =>
      match Worker.run end_task j with
      | Some (_, j1) =>
          match Worker.destroy j1 with
          | Some j2 => Some (Gone j2)
          | None => None
          end
      | None => None
      end
  | _ => Some p
  end.

(** The world of a process, wherever it is held. *)
Definition world_of (p : process) : world :=
  match p with
  | Fresh w => w
  | Live j => Worker.world j
  | Gone j => Worker.world j
  end.

(** [printf] on a thread that is not the worker. *)
Definition print (fmt : string) (args : list printf_arg) (p : process) : process :=
  match p with
  | Fresh w => Fresh (printf fmt args w)
  | Live j =>
      Live (Worker.Build (Worker.running j) (Worker.tasks j) (Worker.pool j)
                         (Worker.thr j) (printf fmt args (Worker.world j))
                         (Worker.trace j))
  | Gone j =>
      Gone (Worker.Build (Worker.running j) (Worker.tasks j) (Worker.pool j)
                         (Worker.thr j) (printf fmt args (Worker.world j))
                         (Worker.trace j))
  end.

(** [n] accesses to the singleton, one after the other. *)
Fixpoint accesses (n : nat) (p : process) : option process :=
  match n with
  | O => Some p
  | S k =>
      match instance p with
      | Some p' => accesses k p'
      | None => None
      end
  end.

Definition is_init (c : api_call) : bool :=
  match c with CallInit => true | _ => false end.

Definition is_atexit_hook (c : api_call) : bool :=
  match c with CallAtExitHook _ => true | _ => false end.

(** Threads that reach the declaration of the static at the same time.
    The static is not yet initialised, or one thread (the owner) is inside
    the constructor, or it is initialised.  A thread that reaches the
    declaration while another one is inside the constructor waits there;
    [holders] lists the threads to which [instance()] has returned. *)
Inductive guard : Type :=
| Before (w : world)
| During (owner : nat) (j : worker)
| After (j : worker).

Record access_state : Type := Access {
  the_guard : guard;
  holders : list nat
}.

Inductive access_action : Type :=
| Reach (tid : nat)      (* thread [tid] reaches the declaration *)
| Work                   (* the worker thread takes its next action *)
| Complete (tid : nat).  (* [run] returns in the constructor of [tid] *)

Definition access_perform (a : access_action) (s : access_state)
  : option access_state :=
  match a, the_guard s with
  | Reach tid, Before w =>
      Some (Access (During tid (fst (Worker.spawn start_task (Worker.init w))))
                   (holders s))
  | Reach tid, During _ _ => None
  | Reach tid, After j => Some (Access (After j) (holders s ++ [tid]))
  | Work, Before _ => None
  | Work, During owner j =>
      match Worker.threadFunc_step j with
      | Some j' => Some (Access (During owner j') (holders s))
      | None => None
      end
  | Work, After j =>
      match Worker.threadFunc_step j with
      | Some j' => Some (Access (After j') (holders s))
      | None => None
      end
  | Complete tid, During owner j =>
      if Nat.eqb tid owner then
        match Worker.future_get 0 j with
        | Some _ => Some (Access (After j) (holders s ++ [tid]))
        | None => None
        end
      else None
  | Complete _, _ => None
  end.

Fixpoint access_runs (sched : list access_action) (s : access_state)
  : option access_state :=
  match sched with
  | [] => Some s
  | a :: rest =>
      match access_perform a s with
      | Some s' => access_runs rest s'
      | None => None
      end
  end.

Definition guard_world (g : guard) : world :=
  match g with
  | Before w => w
  | During _ j => Worker.world j
  | After j => Worker.world j
  end.

(** A process whose singleton can be used: not yet constructed, or
    constructed with its worker in a consistent state and running. *)
Definition usable (p : process) : Prop :=
  match p with
  | Fresh _ => True
  | Live j => Worker.inv j /\ Worker.running j = true
  | Gone _ => False
  end.

(** How often the runtime was started, and how often it was shut down. *)
Definition count_init (l : list api_call) : nat :=
  length (List.filter is_init l).


(** *** Construction *)

Lemma construct_spec (w : world) :
  construct w =
    Some (Worker.Build true []
            [Worker.PackagedTask start_task (Some (Worker.Value RVoid))]
            Worker.AtLoop (snd (start_task w))
            [Worker.Pushed 0; Worker.Popped 0; Worker.Completed 0]).
Proof. unfold construct. by rewrite Worker.run_idle. Qed.

Lemma accesses_live (n : nat) (j : worker) :
  accesses n (Live j) = Some (Live j).
Proof. induction n as [|n IH]; [done|]. simpl. exact IH. Qed.

(** The three states of the worker while the constructor runs. *)
Lemma access_reachable (w : world) (sched : list access_action)
    (s : access_state) :
  access_runs sched (Access (Before w) []) = Some s ->
  let j1 := fst (Worker.spawn start_task (Worker.init w)) in
  let j2 := Worker.Build true []
              [Worker.PackagedTask start_task None]
              (Worker.Calling 0) w [Worker.Pushed 0; Worker.Popped 0] in
  let j3 := Worker.Build true []
              [Worker.PackagedTask start_task (Some (Worker.Value RVoid))]
              Worker.AtLoop (snd (start_task w))
              [Worker.Pushed 0; Worker.Popped 0; Worker.Completed 0] in
  (s = Access (Before w) []) \/
  (exists owner, s = Access (During owner j1) []) \/
  (exists owner, s = Access (During owner j2) []) \/
  (exists owner, s = Access (During owner j3) []) \/
  (the_guard s = After j3).
Proof.
  intros Hruns j1 j2 j3.
  assert (forall s0,
            (s0 = Access (Before w) []) \/
            (exists owner, s0 = Access (During owner j1) []) \/
            (exists owner, s0 = Access (During owner j2) []) \/
            (exists owner, s0 = Access (During owner j3) []) \/
            (the_guard s0 = After j3) ->
            access_runs sched s0 = Some s ->
            (s = Access (Before w) []) \/
            (exists owner, s = Access (During owner j1) []) \/
            (exists owner, s = Access (During owner j2) []) \/
            (exists owner, s = Access (During owner j3) []) \/
            (the_guard s = After j3)) as Hgen.
  { clear Hruns. induction sched as [|a rest IH]; simpl; intros s0 Hs0 Hruns.
    - by simplify_eq.
    - destruct (access_perform a s0) as [s1|] eqn:Ha; [|done].
      apply (IH s1); [|done]. clear IH Hruns.
      destruct Hs0 as [->|[[o ->]|[[o ->]|[[o ->]|Hafter]]]].
      + destruct a; simpl in Ha; try done. simplify_eq.
        right. left. by eexists.
      + destruct a; simpl in Ha; try done.
        * simplify_eq. right. right. left. by eexists.
        * by destruct (tid =? o).
      + destruct a; simpl in Ha; try done.
        * simplify_eq. right. right. right. left. by eexists.
        * by destruct (tid =? o).
      + destruct a; simpl in Ha; try done.
        destruct (tid =? o); [|done]. simplify_eq.
        right. right. right. by right.
      + destruct s0 as [g hs]. simpl in Hafter. subst g.
        destruct a; simpl in Ha; try done. simplify_eq.
        right. right. right. by right. }
  apply (Hgen (Access (Before w) [])); [by left|done].
Qed.

(** C6 (single initialisation).  The first access constructs the singleton:
    the start closure has gone through the worker (queued by [spawn], taken
    by the thread, called by the thread) and has made its two calls into the
    runtime by the time the accessor returns.  Any number of accesses give
    that same singleton, and an access to a constructed singleton changes
    nothing.  With any number of threads reaching the declaration in any
    order while the worker goes on: a thread to which [instance()] has
    returned finds that same singleton, initialised, and [jl_init] has been
    called at most once. *)
Theorem singleton_initialised_once (w : world) :
  exists j : worker,
    instance (Fresh w) = Some (Live j) /\
    Worker.runs [Worker.Spawn start_task; Worker.Wake; Worker.Invoke]
                (Worker.init w) = Some j /\
    Worker.future_get 0 j = Some (Worker.Value RVoid) /\
    Worker.thr j = Worker.AtLoop /\ Worker.tasks j = [] /\
    calls (Worker.world j) = calls w ++ [CallInit; CallEvalString start_script] /\
    rt (Worker.world j) = snd (jl_eval_string start_script (jl_init (rt w))) /\
    count_init (calls (Worker.world j)) = S (count_init (calls w)) /\
    (forall n, accesses (S n) (Fresh w) = Some (Live j)) /\
    (forall n j', accesses n (Live j') = Some (Live j')) /\
    (forall sched s,
       access_runs sched (Access (Before w) []) = Some s ->
       (holders s <> [] -> the_guard s = After j) /\
       count_init (calls (guard_world (the_guard s)))
         <= S (count_init (calls w))).
Proof.
  eexists. split.
  { unfold instance. rewrite construct_spec. reflexivity. }
  split; [reflexivity|]. split; [reflexivity|].
  split; [reflexivity|]. split; [reflexivity|].
  split; [simpl; by rewrite <- (assoc_L (++))|].
  split; [reflexivity|].
  assert (forall l, count_init (l ++ [CallInit]
                                ++ [CallEvalString start_script])
                    = S (count_init l)) as Hcount.
  { intros l. unfold count_init.
    rewrite List.filter_app, length_app. simpl. lia. }
  split.
  { simpl. rewrite <- (assoc_L (++)). apply Hcount. }
  split.
  { intros n.
    change (accesses (S n) (Fresh w)) with
      (match instance (Fresh w) with
       | Some p' => accesses n p'
       | None => None
       end).
    unfold instance. rewrite construct_spec. apply accesses_live. }
  split; [apply accesses_live|].
  intros sched s Hruns.
  destruct (access_reachable w sched s Hruns)
    as [->|[[o ->]|[[o ->]|[[o ->]|Hafter]]]]; simpl.
  - split; [done|lia].
  - split; [done|lia].
  - split; [done|lia].
  - split; [done|]. rewrite <- (assoc_L (++)), Hcount. lia.
  - rewrite Hafter. split; [done|]. simpl.
    rewrite <- (assoc_L (++)), Hcount. lia.
Qed.

(** Three threads reach the declaration; the second and the third find the
    singleton that the first one has constructed. *)
Lemma singleton_initialised_once_example (w : world) :
  exists s,
    access_runs [Reach 1; Work; Work; Complete 1; Reach 2; Reach 3]
                (Access (Before w) []) = Some s /\
    holders s = [1; 2; 3] /\
    exists j, the_guard s = After j /\ instance (Fresh w) = Some (Live j).
Proof.
  eexists. split; [reflexivity|]. split; [reflexivity|].
  eexists. split; [reflexivity|].
  unfold instance. by rewrite construct_spec.
Qed.

(** *** Running a closure *)

Lemma construct_inv (w : world) (j : worker) :
  construct w = Some j -> Worker.inv j /\ Worker.running j = true.
Proof.
  rewrite construct_spec. intros Hj. simplify_eq. split; [|done].
  apply (Worker.inv_runs
           [Worker.Spawn start_task; Worker.Wake; Worker.Invoke]
           (Worker.init w)); [apply Worker.inv_init|done].
Qed.

(** A process in which [Julia::run] comes back, and stays so. *)
Lemma run_usable (f : task) (p : process) :
  usable p ->
  exists wd p',
    run f p = Some (fst (f wd), p') /\ usable p' /\
    world_of p' = snd (f wd).
Proof.
  intros Hu.
  assert (exists j, instance p = Some (Live j) /\ Worker.inv j /\
            Worker.running j = true) as (j & Hi & I & Hr).
  { destruct p as [w|j|j]; unfold instance, usable in *.
    - destruct (construct w) as [j|] eqn:Hc.
      + exists j. split; [done|]. by apply (construct_inv w).
      + by rewrite construct_spec in Hc.
    - exists j. by destruct Hu.
    - done. }
  destruct (Worker.run_spec f j I Hr)
    as (wd & pre & j' & Hrun & I' & Hw' & _ & Hr' & _).
  exists wd, (Live j'). unfold run. rewrite Hi, Hrun.
  split; [done|]. split; [simpl; split; [exact I'|exact Hr']|]. exact Hw'.
Qed.

(** *** Destruction *)



(** *** One thread using the singleton *)

(** A process on which nobody is waiting: the singleton is not constructed
    yet, or it is and its worker waits on an empty deque with [running]
    set. *)
Definition idle (p : process) : Prop :=
  match p with
  | Fresh _ => True
  | Live j =>
      Worker.running j = true /\ Worker.thr j = Worker.AtLoop /\
      Worker.tasks j = []
  | Gone _ => False
  end.

(** The world that a closure submitted now is called in: on a process
    without singleton the start closure comes first. *)
Definition ready_world (p : process) : world :=
  match p with
  | Fresh w => snd (start_task w)
  | Live j => Worker.world j
  | Gone j => Worker.world j
  end.

Lemma instance_idle (p : process) :
  idle p ->
  exists j : worker,
    instance p = Some (Live j) /\ idle (Live j) /\
    Worker.world j = ready_world p.
Proof.
  destruct p as [w|j|j]; intros Hi; [|by exists j|done].
  unfold instance. rewrite construct_spec.
  eexists. split; [done|]. by split.
Qed.

Lemma run_on_idle (f : task) (p : process) :
  idle p ->
  exists p',
    run f p = Some (fst (f (ready_world p)), p') /\ idle p' /\
    world_of p' = snd (f (ready_world p)).
Proof.
  intros Hi. destruct (instance_idle p Hi) as (j & Hj & (Hr & Ht & Hq) & Hw).
  unfold run. rewrite Hj, (Worker.run_idle f j Hr Ht Hq), Hw.
  eexists. split; [done|]. by split.
Qed.

(** X5 (blocking runs in sequence).
    Two blocking runs in a row from a process on which nobody is waiting:
    both come back, the first closure is called in the current world (after
    the start closure, with its [jl_init], when the singleton did not exist
    yet), the second one in the world the first one left, and the process is
    again one on which nobody is waiting. *)
Theorem blocking_runs_compose (f g : task) (p : process) :
  idle p ->
  exists p1 p2,
    run f p = Some (fst (f (ready_world p)), p1) /\
    run g p1 = Some (fst (g (snd (f (ready_world p)))), p2) /\
    world_of p2 = snd (g (snd (f (ready_world p)))) /\
    idle p2 /\
    (forall w, p = Fresh w ->
       calls (ready_world p) =
         calls w ++ [CallInit; CallEvalString start_script]).
Proof.
  intros Hi.
  destruct (run_on_idle f p Hi) as (p1 & Hf & Hi1 & Hw1).
  destruct (run_on_idle g p1 Hi1) as (p2 & Hg & Hi2 & Hw2).
  assert (ready_world p1 = world_of p1) as Hrw.
  { destruct p1; simpl in *; [|done..].
    unfold run in Hf. destruct (instance p) as [[| |]|]; try done.
    by destruct (Worker.run f j) as [[? ?]|]. }
  rewrite Hrw, Hw1 in Hg, Hw2.
  exists p1, p2. do 4 (split; [done|]).
  intros w ->. simpl. by rewrite <- (assoc_L (++)).
Qed.


(** The destructor on a process on which nobody is waiting. *)
Lemma destroy_on_idle (j : worker) :
  idle (Live j) ->
  exists j2 : worker,
    destroy (Live j) = Some (Gone j2) /\
    Worker.world j2 = snd (end_task (Worker.world j)) /\
    Worker.thr j2 = Worker.Returned.
Proof.
  intros (Hr & Ht & Hq). unfold destroy.
  rewrite (Worker.run_idle end_task j Hr Ht Hq).
  rewrite Worker.destroy_idle by done. by eexists.
Qed.

Lemma run_on_idle_live (f : task) (p : process) :
  idle p ->
  exists j' : worker,
    run f p = Some (fst (f (ready_world p)), Live j') /\ idle (Live j') /\
    Worker.world j' = snd (f (ready_world p)).
Proof.
  intros Hi. destruct (instance_idle p Hi) as (j & Hj & (Hr & Ht & Hq) & Hw).
  unfold run. rewrite Hj, (Worker.run_idle f j Hr Ht Hq), Hw.
  eexists. split; [done|]. by split.
Qed.

(** X16 (the script overload).
    [Julia::run(s)] on a process on which nobody is waiting comes back after
    the worker has evaluated [s] exactly once, as the only call into the
    library besides the start of the runtime when that was still to be done;
    nothing is printed, and the caller gets neither the value nor a pending
    exception: the runtime is left in the state [jl_eval_string] produced. *)
Theorem run_script_evaluates_once (s : string) (p : process) :
  idle p ->
  exists p',
    run_script s p = Some p' /\ idle p' /\
    calls (world_of p') = calls (ready_world p) ++ [CallEvalString s] /\
    stdout (world_of p') = stdout (ready_world p) /\
    rt (world_of p') = snd (jl_eval_string s (rt (ready_world p))).
Proof.
  intros Hi.
  destruct (run_on_idle (script_task s) p Hi) as (p' & Hrun & Hi' & Hw).
  exists p'. unfold run_script. rewrite Hrun, Hw.
  split; [done|]. by split.
Qed.

End Julia.

(** *** On the stand-in runtime *)

(** The process before anything has run. *)
Definition stub_world : @world Stub.runtime :=
  @World Stub.runtime Stub.Null [] [].

(** Two threads reach the declaration, the second one after the first has
    constructed the singleton: [jl_init] has been called once. *)
Lemma singleton_initialised_once_witness :
  exists (j : @worker Stub.runtime) (s : @access_state Stub.runtime),
    instance (Fresh stub_world) = Some (Live j) /\
    access_runs [Reach 1; Work; Work; Complete 1; Reach 2]
                (Access (Before stub_world) []) = Some s /\
    the_guard s = After j /\
    count_init (calls (Worker.world j)) = 1.
Proof.
  destruct (singleton_initialised_once stub_world)
    as (j & Hi & _ & _ & _ & _ & _ & _ & Hcount & _ & _ & Hacc).
  exists j. eexists. split; [exact Hi|]. split; [reflexivity|].
  split.
  - apply (Hacc [Reach 1; Work; Work; Complete 1; Reach 2] _ eq_refl).
    discriminate.
  - exact Hcount.
Defined.


(** Two scripts run one after the other on a process without singleton: the
    runtime is started first, then the scripts are evaluated in order. *)
Lemma blocking_runs_compose_witness :
  exists p1 p2 : @process Stub.runtime,
    run (script_task "a = 1") (Fresh stub_world) = Some (Worker.Value RVoid, p1) /\
    run (script_task "a + 1") p1 = Some (Worker.Value RVoid, p2) /\
    calls (world_of p2) =
      [CallInit; CallEvalString start_script;
       CallEvalString "a = 1"; CallEvalString "a + 1"].
Proof.
  destruct (blocking_runs_compose (script_task "a = 1") (script_task "a + 1")
              (Fresh stub_world) I) as (p1 & p2 & H1 & H2 & Hw & _).
  exists p1, p2. split; [exact H1|]. split; [exact H2|].
  rewrite Hw. reflexivity.
Defined.


(** A script as the first use of the runtime in the process. *)
Lemma run_script_evaluates_once_witness :
  exists p',
    run_script "a = 1" (Fresh stub_world) = Some p' /\
    calls (world_of p') =
      [CallInit; CallEvalString start_script; CallEvalString "a = 1"].
Proof.
  destruct (run_script_evaluates_once "a = 1" (Fresh stub_world) I)
    as (p' & Hrun & _ & Hcalls & _).
  exists p'. split; [exact Hrun|exact Hcalls].
Defined.

End Julia.

(** ** The plugin *)

Module Amp.
Section Amp.

Context `{LibJulia}.

Import Julia.
Local Open Scope Z_scope.

(** A pointer is an address, [0] the null pointer; a cell holds a [float]. *)
Definition pointer : Type := Z.
Definition memory : Type := Z -> option float32.

Definition load (m : memory) (a : pointer) : option float32 := m a.

Definition store (m : memory) (a : pointer) (x : float32) : option memory :=
  match m a with
  | Some _ => Some (fun b => if Z.eqb b a then Some x else m b)
  | None => None
  end.

(** The instance structure. *)
Record Amp : Type := Build {
  gain : pointer;
  input : pointer;
  output : pointer;
  db_to_coef : jl_value
}.

(** [calloc(1, sizeof(Amp))]: storage with every byte zero, or the null
    pointer when the allocator has nothing left. *)
Definition calloc_Amp (heap_left : bool) : option Amp :=
  if heap_left then Some (Build 0 0 0 jl_null) else None.

(** [instantiate]: the handle is what [calloc] returned. *)
Definition instantiate {Descriptor Feature : Type}
    (descriptor : Descriptor) (rate : spec_float) (bundle_path : string)
    (features : list Feature) (heap_left : bool) : option Amp :=
  calloc_Amp heap_left.

(** [connect_port]: the switch on the port index. *)
Definition connect_port (amp : Amp) (port : Z) (data : pointer) : Amp :=
  match port with
  | 0%Z => Build data (input amp) (output amp) (db_to_coef amp)
  | 1%Z => Build (gain amp) data (output amp) (db_to_coef amp)
  | 2%Z => Build (gain amp) (input amp) data (db_to_coef amp)
  | _ => amp
  end.

Definition hello_script : string :=
  "println(" +:+ dq +:+ "Hello from Julia!)".

Definition include_script : string :=
  "include(" +:+ dq
  +:+ "/home/oliver/local/src/lv2/plugins/eg-julia.amp.lv2/amp.jl"
  +:+ dq +:+ ")".

(** [jl_call1(f, jl_box_float32(x))]. *)
Definition call_boxed (f : jl_value) (x : float32) (w : world)
  : jl_value * world :=
  let b := box_float32 x w in
  call1 f (fst b) (snd b).

(** The report that [activate] prints when an exception is pending. *)
Definition report (tag : string) (w : world) : world :=
  if exception_occurred w then
    printf (tag +:+ ": %s " +:+ nl)
           [ArgString (jl_typeof_str (jl_exception_occurred (rt w)))] w
  else w.

(** The first closure of [activate]. *)
Definition hello_task : task :=
  fun w => (Worker.Value RVoid, snd (eval_string hello_script w)).

(** The second closure of [activate]: load the script, look the function up. *)
Definition include_task : task :=
  fun w =>
    let w1 := printf ("Including amp.jl" +:+ nl) [] w in
    let m := eval_string include_script w1 in
    let w2 := report "E2" (snd m) in
    let w3 := printf ("Getting julia function" +:+ nl) [] w2 in
    let f := get_function (fst m) "db_to_coef" w3 in
    let w4 := report "E3" (snd f) in
    (Worker.Value (RPointer (fst f)), w4).

(** The third closure of [activate]: the trial call. *)
Definition test_task (f : jl_value) : task :=
  fun w =>
    let w1 := printf ("Testing julia function." +:+ nl) [] w in
    let ret := call_boxed f f32_minus_three w1 in
    let w2 := report "E4" (snd ret) in
    if jl_typeis_float32 (fst ret) then
      let unbox32 := jl_unbox_float32 (fst ret) in
      (Worker.Value (RFloat unbox32),
       printf ("Got32 gain=%.2f -> coef=%.2f" +:+ nl)
              [ArgFloat f32_minus_three; ArgFloat unbox32] w2)
    else
      (Worker.Value (RFloat f32_minus_one),
       printf ("Received wrong type from julia." +:+ nl) [] w2).

(** The closure of the audio callback. *)
Definition audio_task (f : jl_value) (x : float32) : task :=
  fun w =>
    let ret := call_boxed f x w in
    if jl_typeis_float32 (fst ret) then
      (Worker.Value (RFloat (jl_unbox_float32 (fst ret))), snd ret)
    else
      (Worker.Value (RFloat f32_minus_one), snd ret).

(** [activate].  Loading the library with [dlopen] changes nothing that the
    model holds; the three closures return a value of the shape the code
    expects, and the other cases of the matches are unreachable. *)
Definition activate (self : Amp) (p : process) : option (Amp * process) :=
  let p1 := print ("dlopen libjulia.so" +:+ nl) [] p in
  let p2 := print ("Julia init" +:+ nl) [] p1 in
  match Julia.run hello_task p2 with
  | Some (_, p3) =>
      match Julia.run include_task p3 with
      | Some (Worker.Value (RPointer f), p4) =>
          let p5 := print ("Saving julia function" +:+ nl) [] p4 in
          let self' := Build (gain self) (input self) (output self) f in
          match Julia.run (test_task (db_to_coef self')) p5 with
          | Some (Worker.Value (RFloat coef), p6) =>
              let p7 := print ("Test coef = %.2f" +:+ nl) [ArgFloat coef] p6 in
              let p8 := print ("activate complete" +:+ nl) [] p7 in
              Some (self', p8)
          | _ => None
          end
      | _ => None
      end
  | None => None
  end.

(** The loop of the audio callback; [pos] is a [uint32_t]. *)
Fixpoint scale (fuel : nat) (inp out : pointer) (coef : float32)
    (n_samples pos : Z) (m : memory) : option memory :=
  if (pos <? n_samples)%Z then
    match fuel with
    | O => None
    | S k =>
        match load m (inp + pos) with
        | Some x =>
            match store m (out + pos) (f32_mul x coef) with
            | Some m1 =>
                scale k inp out coef n_samples ((pos + 1) mod 2 ^ 32) m1
            | None => None
            end
        | None => None
        end
    end
  else Some m.

(** [run]: the audio callback; [n_samples] is a [uint32_t].  [None] when a
    pointer that is read or written is not mapped, or when [Julia::run] does
    not come back. *)
Definition run (amp : Amp) (n_samples : Z) (m : memory) (p : process)
  : option (memory * process) :=
  match load m (gain amp) with
  | Some g =>
      match Julia.run (audio_task (db_to_coef amp) g) p with
      | Some (Worker.Value (RFloat coef), p1) =>
          let p2 := print ("coef = %.2f" +:+ nl) [ArgFloat coef] p1 in
          match scale (Z.to_nat n_samples) (input amp) (output amp) coef
                      n_samples 0 m with
          | Some m' => Some (m', p2)
          | None => None
          end
      | _ => None
      end
  | None => None
  end.

(** *** What the closures show of an error in the runtime *)

(** The closure of [Julia::run(s)] returns nothing and prints nothing,
    whatever the evaluation of the script did. *)
Lemma script_task_blind (s : string) (w : world) :
  fst (script_task s w) = Worker.Value RVoid /\
  stdout (snd (script_task s w)) = stdout w.
Proof. done. Qed.

(** The closure of the audio callback prints nothing, and what it returns is
    decided by the returned value alone: [jl_exception_occurred] is not
    consulted. *)
Lemma audio_task_blind (f : jl_value) (x : float32) (w : world) :
  stdout (snd (audio_task f x w)) = stdout w /\
  fst (audio_task f x w) =
    Worker.Value
      (RFloat (if jl_typeis_float32 (fst (call_boxed f x w))
               then jl_unbox_float32 (fst (call_boxed f x w))
               else f32_minus_one)).
Proof. unfold audio_task. by destruct (jl_typeis_float32 _). Qed.

(** The closure of the trial call in [activate] does consult it: with an
    exception pending after the call, the report is printed. *)
Lemma test_task_reports (f : jl_value) (w : world) :
  let w1 := printf ("Testing julia function." +:+ nl) [] w in
  let ret := call_boxed f f32_minus_three w1 in
  exception_occurred (snd ret) = true ->
  Printf ("E4: %s " +:+ nl)
         [ArgString (jl_typeof_str (jl_exception_occurred (rt (snd ret))))]
    ∈ stdout (snd (test_task f w)).
Proof.
  intros w1 ret Hexc. unfold test_task. fold w1. fold ret.
  unfold report. rewrite Hexc.
  destruct (jl_typeis_float32 (fst ret)); simpl;
    rewrite elem_of_app; left; apply elem_of_snoc_eq.
Qed.

(** *** The port connections and the fresh instance *)

(** C10 (frame of [connect_port], state after [instantiate]).  Port 0 sets
    the gain pointer, port 1 the input pointer, port 2 the output pointer,
    each leaving the three other fields as they were; any other port index
    leaves the instance as it was.  [instantiate] does not look at its
    arguments, and the instance it returns (it returns one whenever [calloc]
    has storage) has all four fields null. *)
Theorem connect_port_frame (amp : Amp) (data : pointer) :
  connect_port amp 0 data = Build data (input amp) (output amp) (db_to_coef amp) /\
  connect_port amp 1 data = Build (gain amp) data (output amp) (db_to_coef amp) /\
  connect_port amp 2 data = Build (gain amp) (input amp) data (db_to_coef amp) /\
  (forall port, port <> 0 -> port <> 1 -> port <> 2 ->
     connect_port amp port data = amp) /\
  (forall (Descriptor Feature : Type) (d d' : Descriptor) (r r' : spec_float)
          (b b' : string) (fs fs' : list Feature) (heap_left : bool),
     instantiate d r b fs heap_left = instantiate d' r' b' fs' heap_left /\
     instantiate d r b fs true = Some (Build 0 0 0 jl_null) /\
     (forall inst, instantiate d r b fs heap_left = Some inst ->
        gain inst = 0 /\ input inst = 0 /\ output inst = 0 /\
        db_to_coef inst = jl_null)).
Proof.
  split; [done|]. split; [done|]. split; [done|]. split.
  - intros port H0 H1 H2. unfold connect_port.
    destruct port as [|[q|q|]|]; try done.
    + by destruct q.
  - intros D F d d' r r' b b' fs fs' heap_left.
    split; [done|]. split; [done|].
    intros inst. unfold instantiate, calloc_Amp.
    destruct heap_left; [|done]. intros Hi. by simplify_eq.
Qed.

(** *** The type check on what the runtime returns *)

(** C5 (type mismatch).  When the value that [jl_call1] returns is not a
    [Float32], the closure of the audio callback returns [-1.0f] and so does
    the closure of the trial call in [activate], whatever [jl_unbox_float32]
    would make of the value; and [Julia::run] hands that [-1.0f] to the
    callback when the runtime answers so in every state. *)
Theorem wrong_type_gives_sentinel (f : jl_value) (x : float32) :
  (forall w,
     jl_typeis_float32 (fst (call_boxed f x w)) = false ->
     fst (audio_task f x w) = Worker.Value (RFloat f32_minus_one)) /\
  (forall w,
     jl_typeis_float32
       (fst (call_boxed f f32_minus_three
               (printf ("Testing julia function." +:+ nl) [] w))) = false ->
     fst (test_task f w) = Worker.Value (RFloat f32_minus_one)) /\
  (forall p,
     usable p ->
     (forall w, jl_typeis_float32 (fst (call_boxed f x w)) = false) ->
     exists p',
       Julia.run (audio_task f x) p =
         Some (Worker.Value (RFloat f32_minus_one), p')) /\
  (forall p,
     usable p ->
     (forall w, jl_typeis_float32 (fst (call_boxed f f32_minus_three w)) = false) ->
     exists p',
       Julia.run (test_task f) p =
         Some (Worker.Value (RFloat f32_minus_one), p')).
Proof.
  assert (forall w, jl_typeis_float32 (fst (call_boxed f x w)) = false ->
            fst (audio_task f x w) = Worker.Value (RFloat f32_minus_one)) as Ha.
  { intros w Hty. unfold audio_task. by rewrite Hty. }
  assert (forall w,
            jl_typeis_float32
              (fst (call_boxed f f32_minus_three
                      (printf ("Testing julia function." +:+ nl) [] w))) = false ->
            fst (test_task f w) = Worker.Value (RFloat f32_minus_one)) as Ht.
  { intros w Hty. unfold test_task. by rewrite Hty. }
  split; [exact Ha|]. split; [exact Ht|]. split.
  - intros p Hu Hall.
    destruct (run_usable (audio_task f x) p Hu) as (wd & p' & Hrun & _).
    exists p'. rewrite Hrun. by rewrite Ha.
  - intros p Hu Hall.
    destruct (run_usable (test_task f) p Hu) as (wd & p' & Hrun & _).
    exists p'. rewrite Hrun. by rewrite Ht.
Qed.

(** *** The loop *)

Lemma store_spec (m m1 : memory) (a : pointer) (x : float32) :
  store m a x = Some m1 ->
  m1 a = Some x /\ (forall b, b <> a -> m1 b = m b).
Proof.
  unfold store. destruct (m a); [|done]. intros Hs. simplify_eq. split.
  - by rewrite Z.eqb_refl.
  - intros b Hb. by apply Z.eqb_neq in Hb as ->.
Qed.

Lemma store_mapped (m : memory) (a : pointer) (x : float32) :
  is_Some (m a) -> exists m1, store m a x = Some m1.
Proof. unfold store. intros [y ->]. by eexists. Qed.

(** The loop from [pos] on: it terminates, each sample it still has to write
    is the product of the sample it reads and the coefficient, and it
    touches no other cell. *)
Lemma scale_spec (fuel : nat) :
  forall (inp out : pointer) (coef : float32) (n pos : Z) (m : memory),
    0 <= pos <= n -> n < 2 ^ 32 -> fuel = Z.to_nat (n - pos) ->
    (forall q, pos <= q < n -> is_Some (m (inp + q))) ->
    (forall q, pos <= q < n -> is_Some (m (out + q))) ->
    (forall i k, pos <= i < k -> k < n -> out + i <> inp + k) ->
    exists m',
      scale fuel inp out coef n pos m = Some m' /\
      (forall q, pos <= q < n ->
         exists x, m (inp + q) = Some x /\
                   m' (out + q) = Some (f32_mul x coef)) /\
      (forall a, (forall q, pos <= q < n -> a <> out + q) -> m' a = m a).
Proof.
  induction fuel as [|k IH]; intros inp out coef n pos m Hpos Hn Hfuel Hin Hout Hnc.
  - assert (pos = n) as -> by lia.
    exists m. simpl. rewrite Z.ltb_irrefl.
    split; [done|]. split; [intros q Hq; lia|done].
  - assert (pos < n) as Hlt by lia.
    destruct (Hin pos) as [x Hx]; [lia|].
    destruct (store_mapped m (out + pos) (f32_mul x coef)) as [m1 Hst];
      [apply Hout; lia|].
    destruct (store_spec _ _ _ _ Hst) as [Hm1 Hother].
    assert ((pos + 1) mod 2 ^ 32 = pos + 1) as Hwrap
      by (apply Z.mod_small; lia).
    destruct (IH inp out coef n (pos + 1) m1) as (m' & Hrun & Hall & Hframe);
      try lia.
    + intros q Hq. destruct (decide (inp + q = out + pos)) as [->|Hne].
      * rewrite Hm1. by eexists.
      * rewrite Hother by done. apply Hin. lia.
    + intros q Hq. rewrite Hother by lia. apply Hout. lia.
    + intros i j Hi Hj. apply Hnc; lia.
    + exists m'. split.
      * simpl. apply Z.ltb_lt in Hlt as ->. unfold load. rewrite Hx, Hst.
        by rewrite Hwrap.
      * split.
        -- intros q Hq. destruct (decide (q = pos)) as [->|Hne].
           ++ exists x. split; [done|].
              rewrite Hframe; [done|]. intros q' Hq'. lia.
           ++ destruct (Hall q) as (y & Hy & Hy'); [lia|].
              exists y. split; [|done].
              rewrite <- Hy. symmetry. apply Hother.
              intros Heq. apply (Hnc pos q); [lia|lia|done].
        -- intros a Ha. rewrite Hframe.
           ++ apply Hother. apply Ha. lia.
           ++ intros q Hq. apply Ha. lia.
Qed.

(** C9 (gain applied to every sample).  In a process whose singleton can be
    used, for a block of [n_samples] samples whose cells are mapped and whose
    output does not overwrite an input sample that is still to be read
    (separate buffers, or processing in place): the callback returns, the
    coefficient is the one the closure got from the runtime, every
    [output[pos]] is [input[pos] * coef] in binary32 arithmetic, and no other
    cell changes. *)
Theorem run_scales_every_sample
    (amp : Amp) (n_samples : Z) (m : memory) (p : process) (g : float32) :
  usable p -> 0 <= n_samples < 2 ^ 32 ->
  load m (gain amp) = Some g ->
  (forall pos, 0 <= pos < n_samples -> is_Some (m (input amp + pos))) ->
  (forall pos, 0 <= pos < n_samples -> is_Some (m (output amp + pos))) ->
  (forall i k, 0 <= i < k -> k < n_samples ->
     output amp + i <> input amp + k) ->
  exists (coef : float32) (p1 : process) (m' : memory),
    Julia.run (audio_task (db_to_coef amp) g) p =
      Some (Worker.Value (RFloat coef), p1) /\
    run amp n_samples m p =
      Some (m', print ("coef = %.2f" +:+ nl) [ArgFloat coef] p1) /\
    (forall pos, 0 <= pos < n_samples ->
       exists x, m (input amp + pos) = Some x /\
                 m' (output amp + pos) = Some (f32_mul x coef)) /\
    (forall a, (forall pos, 0 <= pos < n_samples -> a <> output amp + pos) ->
       m' a = m a).
Proof.
  intros Hu Hn Hg Hin Hout Hnc.
  destruct (run_usable (audio_task (db_to_coef amp) g) p Hu)
    as (wd & p1 & Hrun & _).
  assert (exists coef, fst (audio_task (db_to_coef amp) g wd) =
                         Worker.Value (RFloat coef)) as [coef Hcoef].
  { unfold audio_task. destruct (jl_typeis_float32 _); by eexists. }
  rewrite Hcoef in Hrun.
  destruct (scale_spec (Z.to_nat n_samples) (input amp) (output amp) coef
              n_samples 0 m) as (m' & Hsc & Hall & Hframe);
    try done; try lia.
  exists coef, p1, m'. split; [done|]. split; [|done].
  unfold run. by rewrite Hg, Hrun, Hsc.
Qed.

(** *** Activation *)

Lemma print_idle (fmt : string) (args : list printf_arg) (p : process) :
  idle p -> idle (print fmt args p).
Proof. by destruct p. Qed.

Lemma print_usable (fmt : string) (args : list printf_arg) (p : process) :
  usable p -> usable (print fmt args p).
Proof.
  destruct p as [w|j|j]; simpl; [done| |done].
  intros [I Hr]. split; [|done]. by apply Worker.inv_world.
Qed.

Lemma test_task_float (f : jl_value) (w : world) :
  exists coef, fst (test_task f w) = Worker.Value (RFloat coef).
Proof. unfold test_task. destruct (jl_typeis_float32 _); by eexists. Qed.

Lemma audio_task_float (f : jl_value) (x : float32) (w : world) :
  exists coef, fst (audio_task f x w) = Worker.Value (RFloat coef).
Proof. unfold audio_task. destruct (jl_typeis_float32 _); by eexists. Qed.

(** X7 ([activate] keeps the ports).
    [activate] on a process whose singleton can be used comes back (as far
    as the calls into the library do): the three port pointers are as they
    were, [db_to_coef] is the pointer the second closure returned in the
    world [wd] it was called in, and the singleton can still be used, so
    that [run] can follow.  On a process on which nobody is waiting, [wd] is
    the world the first closure left: [db_to_coef] is what
    [jl_get_function] gave there. *)
Theorem activate_keeps_ports (self : Amp) (p : process) :
  usable p ->
  exists (wd : world) (f : jl_value) (p' : process),
    fst (include_task wd) = Worker.Value (RPointer f) /\
    activate self p =
      Some (Build (gain self) (input self) (output self) f, p') /\
    usable p' /\
    (idle p ->
     fst (include_task
            (snd (hello_task
                    (ready_world
                       (print ("Julia init" +:+ nl) []
                          (print ("dlopen libjulia.so" +:+ nl) [] p))))))
       = Worker.Value (RPointer f)).
Proof.
  intros Hu. unfold activate.
  set (p2 := print ("Julia init" +:+ nl) []
               (print ("dlopen libjulia.so" +:+ nl) [] p)).
  assert (usable p2) as Hu2 by (by do 2 apply print_usable).
  destruct (run_usable hello_task _ Hu2) as (wd1 & p3 & Hrun1 & Hu3 & _).
  destruct (run_usable include_task _ Hu3) as (wd2 & p4 & Hrun2 & Hu4 & _).
  assert (exists f, fst (include_task wd2) = Worker.Value (RPointer f))
    as [f Hf] by (by eexists).
  pose proof (print_usable ("Saving julia function" +:+ nl) [] _ Hu4) as Hu5.
  destruct (run_usable (test_task f) _ Hu5) as (wd3 & p6 & Hrun & Hu6 & _).
  destruct (test_task_float f wd3) as [coef Hcoef].
  exists wd2, f. eexists. split; [exact Hf|].
  split.
  { rewrite Hrun1, Hrun2, Hf. simpl db_to_coef. by rewrite Hrun, Hcoef. }
  split; [by do 2 apply print_usable|].
  intros Hi.
  assert (idle p2) as Hi2 by (by do 2 apply print_idle).
  destruct (run_on_idle_live hello_task p2 Hi2) as (j3 & Hrun1' & Hi3 & Hw3).
  assert (p3 = Live j3) as -> by congruence.
  destruct (run_on_idle_live include_task _ Hi3) as (j4 & Hrun2' & _).
  assert (fst (include_task (ready_world (Live j3))) =
          fst (include_task wd2)) as Hsame by congruence.
  simpl ready_world in Hsame. rewrite Hw3 in Hsame.
  by rewrite Hsame.
Qed.

(** *** Connecting ports, more than once *)

Lemma connect_port_cases (port : Z) :
  port = 0 \/ port = 1 \/ port = 2 \/
  (forall amp data, connect_port amp port data = amp).
Proof.
  destruct port as [|[q|[q|q|]|]|q].
  - by left.
  - right. right. right. intros amp data. by destruct q.
  - right. right. right. done.
  - right. right. right. done.
  - right. right. by left.
  - right. by left.
  - right. right. right. done.
Qed.

(** X8 ([connect_port] composed).
    Connections compose: the last connection of a port is the one that
    counts, and connections of different ports can be made in either
    order. *)
Theorem connect_port_composes (amp : Amp) (p q : Z) (d e : pointer) :
  connect_port (connect_port amp p d) p e = connect_port amp p e /\
  (p <> q ->
   connect_port (connect_port amp p d) q e =
     connect_port (connect_port amp q e) p d).
Proof.
  destruct (connect_port_cases p) as [->|[->|[->|Hp]]];
    destruct (connect_port_cases q) as [->|[->|[->|Hq]]];
    rewrite ?Hp, ?Hq; split; try done; intros Hne; try done;
    by rewrite ?Hp, ?Hq.
Qed.

(** *** More on the loop *)

Lemma store_domain (m m1 : memory) (a : pointer) (x : float32) :
  store m a x = Some m1 -> forall b, is_Some (m1 b) <-> is_Some (m b).
Proof.
  unfold store. destruct (m a) as [y|] eqn:Hy; [|done].
  intros Hs b. simplify_eq. destruct (Z.eqb_spec b a) as [->|Hne]; [|done].
  rewrite Hy. split; by eexists.
Qed.

(** The loop on mapped buffers, whatever their layout: it terminates, the
    same cells are mapped afterwards, and only cells of the output buffer
    have changed. *)
Lemma scale_total (fuel : nat) :
  forall (inp out : pointer) (coef : float32) (n pos : Z) (m : memory),
    0 <= pos <= n -> n < 2 ^ 32 -> fuel = Z.to_nat (n - pos) ->
    (forall q, pos <= q < n -> is_Some (m (inp + q))) ->
    (forall q, pos <= q < n -> is_Some (m (out + q))) ->
    exists m',
      scale fuel inp out coef n pos m = Some m' /\
      (forall a, is_Some (m' a) <-> is_Some (m a)) /\
      (forall a, (forall q, pos <= q < n -> a <> out + q) -> m' a = m a).
Proof.
  induction fuel as [|k IH]; intros inp out coef n pos m Hpos Hn Hfuel Hin Hout.
  - assert (pos = n) as -> by lia.
    exists m. simpl. rewrite Z.ltb_irrefl. by split.
  - assert (pos < n) as Hlt by lia.
    destruct (Hin pos) as [x Hx]; [lia|].
    destruct (store_mapped m (out + pos) (f32_mul x coef)) as [m1 Hst];
      [apply Hout; lia|].
    pose proof (store_domain _ _ _ _ Hst) as Hdom.
    destruct (store_spec _ _ _ _ Hst) as [_ Hother].
    assert ((pos + 1) mod 2 ^ 32 = pos + 1) as Hwrap
      by (apply Z.mod_small; lia).
    destruct (IH inp out coef n (pos + 1) m1) as (m' & Hrun & Hd' & Hframe);
      try lia.
    + intros q Hq. apply Hdom, Hin. lia.
    + intros q Hq. apply Hdom, Hout. lia.
    + exists m'. split.
      * simpl. apply Z.ltb_lt in Hlt as ->. unfold load. rewrite Hx, Hst.
        by rewrite Hwrap.
      * split.
        -- intros a. by rewrite Hd', Hdom.
        -- intros a Ha. rewrite Hframe.
           ++ apply Hother. apply Ha. lia.
           ++ intros q Hq. apply Ha. lia.
Qed.

(** X9 ([run] block after block).
    [run] keeps what it needs: on a usable singleton and mapped buffers,
    laid out in any way, the callback comes back, the singleton can still be
    used, the same cells are mapped and only cells of the output buffer have
    changed; so the host can call it block after block. *)
Theorem run_can_be_repeated
    (amp : Amp) (n_samples : Z) (m : memory) (p : process) (g : float32) :
  usable p -> 0 <= n_samples < 2 ^ 32 ->
  load m (gain amp) = Some g ->
  (forall pos, 0 <= pos < n_samples -> is_Some (m (input amp + pos))) ->
  (forall pos, 0 <= pos < n_samples -> is_Some (m (output amp + pos))) ->
  exists (m' : memory) (p' : process),
    run amp n_samples m p = Some (m', p') /\
    usable p' /\
    (forall a, is_Some (m' a) <-> is_Some (m a)) /\
    (forall a, (forall pos, 0 <= pos < n_samples -> a <> output amp + pos) ->
       m' a = m a).
Proof.
  intros Hu Hn Hg Hin Hout.
  destruct (run_usable (audio_task (db_to_coef amp) g) p Hu)
    as (wd & p1 & Hrun & Hu1 & _).
  destruct (audio_task_float (db_to_coef amp) g wd) as [coef Hcoef].
  rewrite Hcoef in Hrun.
  destruct (scale_total (Z.to_nat n_samples) (input amp) (output amp) coef
              n_samples 0 m) as (m' & Hsc & Hdom & Hframe);
    try done; try lia.
  exists m', (print ("coef = %.2f" +:+ nl) [ArgFloat coef] p1).
  split; [unfold run; by rewrite Hg, Hrun, Hsc|].
  split; [by apply print_usable|]. by split.
Qed.

(** X10 (empty block).
    An empty block: no cell is read or written, whether or not the buffers
    are connected, but the closure is still run on the worker and the
    coefficient is still printed. *)
Theorem run_on_empty_block
    (amp : Amp) (m : memory) (p : process) (g : float32) :
  usable p -> load m (gain amp) = Some g ->
  exists (coef : float32) (p1 : process),
    Julia.run (audio_task (db_to_coef amp) g) p =
      Some (Worker.Value (RFloat coef), p1) /\
    run amp 0 m p =
      Some (m, print ("coef = %.2f" +:+ nl) [ArgFloat coef] p1).
Proof.
  intros Hu Hg.
  destruct (run_usable (audio_task (db_to_coef amp) g) p Hu)
    as (wd & p1 & Hrun & _).
  destruct (audio_task_float (db_to_coef amp) g wd) as [coef Hcoef].
  rewrite Hcoef in Hrun.
  exists coef, p1. split; [done|].
  unfold run. by rewrite Hg, Hrun.
Qed.

(** X11 (in-place processing).
    Processing in place, with the output buffer being the input buffer:
    every sample is replaced by its product with the coefficient. *)
Theorem run_in_place
    (amp : Amp) (n_samples : Z) (m : memory) (p : process) (g : float32) :
  usable p -> 0 <= n_samples < 2 ^ 32 ->
  output amp = input amp ->
  load m (gain amp) = Some g ->
  (forall pos, 0 <= pos < n_samples -> is_Some (m (input amp + pos))) ->
  exists (coef : float32) (p1 : process) (m' : memory),
    Julia.run (audio_task (db_to_coef amp) g) p =
      Some (Worker.Value (RFloat coef), p1) /\
    run amp n_samples m p =
      Some (m', print ("coef = %.2f" +:+ nl) [ArgFloat coef] p1) /\
    (forall pos, 0 <= pos < n_samples ->
       exists x, m (input amp + pos) = Some x /\
                 m' (input amp + pos) = Some (f32_mul x coef)).
Proof.
  intros Hu Hn Hsame Hg Hin.
  destruct (run_usable (audio_task (db_to_coef amp) g) p Hu)
    as (wd & p1 & Hrun & _).
  destruct (audio_task_float (db_to_coef amp) g wd) as [coef Hcoef].
  rewrite Hcoef in Hrun.
  destruct (scale_spec (Z.to_nat n_samples) (input amp) (input amp) coef
              n_samples 0 m) as (m' & Hsc & Hall & _);
    try done; try lia.
  exists coef, p1, m'. split; [done|]. split; [|done].
  unfold run. by rewrite Hg, Hrun, Hsame, Hsc.
Qed.

(** X12 (the sentinel reaches the output).
    When the runtime answers with a value that is not a [Float32], the
    callback does not skip the block: it multiplies every sample by
    [-1.0f]. *)
Theorem run_applies_the_sentinel
    (amp : Amp) (n_samples : Z) (m : memory) (p : process) (g : float32) :
  usable p -> 0 <= n_samples < 2 ^ 32 ->
  load m (gain amp) = Some g ->
  (forall w,
     jl_typeis_float32 (fst (call_boxed (db_to_coef amp) g w)) = false) ->
  (forall pos, 0 <= pos < n_samples -> is_Some (m (input amp + pos))) ->
  (forall pos, 0 <= pos < n_samples -> is_Some (m (output amp + pos))) ->
  (forall i k, 0 <= i < k -> k < n_samples ->
     output amp + i <> input amp + k) ->
  exists (p1 : process) (m' : memory),
    run amp n_samples m p =
      Some (m', print ("coef = %.2f" +:+ nl) [ArgFloat f32_minus_one] p1) /\
    (forall pos, 0 <= pos < n_samples ->
       exists x, m (input amp + pos) = Some x /\
                 m' (output amp + pos) = Some (f32_mul x f32_minus_one)).
Proof.
  intros Hu Hn Hg Hty Hin Hout Hnc.
  destruct (run_usable (audio_task (db_to_coef amp) g) p Hu)
    as (wd & p1 & Hrun & _).
  assert (fst (audio_task (db_to_coef amp) g wd) =
          Worker.Value (RFloat f32_minus_one)) as Hcoef.
  { unfold audio_task. by rewrite Hty. }
  rewrite Hcoef in Hrun.
  destruct (scale_spec (Z.to_nat n_samples) (input amp) (output amp)
              f32_minus_one n_samples 0 m) as (m' & Hsc & Hall & _);
    try done; try lia.
  exists p1, m'. split; [|done].
  unfold run. by rewrite Hg, Hrun, Hsc.
Qed.

(** [x] multiplied [k] times by [coef], each product rounded. *)
Fixpoint scaled (k : nat) (x coef : float32) : float32 :=
  match k with
  | O => x
  | S k' => f32_mul (scaled k' x coef) coef
  end.

Lemma scaled_first (k : nat) (x coef : float32) :
  scaled k (f32_mul x coef) coef = scaled (S k) x coef.
Proof. induction k as [|k IH]; simpl; [done|]. by rewrite IH. Qed.

(** The loop with the output buffer one cell after the input buffer: each
    iteration reads what the one before has written. *)
Lemma scale_shifted (fuel : nat) :
  forall (inp : pointer) (coef : float32) (n pos : Z) (m : memory)
         (y : float32),
    0 <= pos <= n -> n < 2 ^ 32 -> fuel = Z.to_nat (n - pos) ->
    m (inp + pos) = Some y ->
    (forall q, pos <= q < n -> is_Some (m (inp + 1 + q))) ->
    exists m',
      scale fuel inp (inp + 1) coef n pos m = Some m' /\
      (forall q, pos <= q < n ->
         m' (inp + 1 + q) = Some (scaled (S (Z.to_nat (q - pos))) y coef)) /\
      (forall a, a <= inp + pos -> m' a = m a).
Proof.
  induction fuel as [|k IH]; intros inp coef n pos m y Hpos Hn Hfuel Hy Hout.
  - assert (pos = n) as -> by lia.
    exists m. simpl. rewrite Z.ltb_irrefl.
    split; [done|]. split; [intros q Hq; lia|done].
  - assert (pos < n) as Hlt by lia.
    destruct (store_mapped m (inp + 1 + pos) (f32_mul y coef)) as [m1 Hst];
      [apply Hout; lia|].
    pose proof (store_domain _ _ _ _ Hst) as Hdom.
    destruct (store_spec _ _ _ _ Hst) as [Hm1 Hother].
    assert ((pos + 1) mod 2 ^ 32 = pos + 1) as Hwrap
      by (apply Z.mod_small; lia).
    destruct (IH inp coef n (pos + 1) m1 (f32_mul y coef))
      as (m' & Hrun & Hall & Hframe); try lia.
    + by replace (inp + (pos + 1)) with (inp + 1 + pos) by lia.
    + intros q Hq. apply Hdom, Hout. lia.
    + exists m'. split.
      * simpl. apply Z.ltb_lt in Hlt as ->. unfold load. rewrite Hy, Hst.
        by rewrite Hwrap.
      * split.
        -- intros q Hq. destruct (decide (q = pos)) as [->|Hne].
           ++ rewrite Hframe by lia. rewrite Hm1.
              by rewrite Z.sub_diag.
           ++ rewrite Hall by lia. rewrite scaled_first.
              do 2 f_equal. lia.
        -- intros a Ha. rewrite Hframe by lia. apply Hother. lia.
Qed.

(** X13 (overlapping buffers).
    With the output buffer connected one cell after the input buffer the
    callback does not scale the block: sample [pos] of the output is the
    first input sample multiplied [pos + 1] times by the coefficient. *)
Theorem run_on_shifted_buffers
    (amp : Amp) (n_samples : Z) (m : memory) (p : process) (g x0 : float32) :
  usable p -> 0 <= n_samples < 2 ^ 32 ->
  output amp = input amp + 1 ->
  load m (gain amp) = Some g ->
  m (input amp) = Some x0 ->
  (forall pos, 0 <= pos < n_samples -> is_Some (m (output amp + pos))) ->
  exists (coef : float32) (p1 : process) (m' : memory),
    Julia.run (audio_task (db_to_coef amp) g) p =
      Some (Worker.Value (RFloat coef), p1) /\
    run amp n_samples m p =
      Some (m', print ("coef = %.2f" +:+ nl) [ArgFloat coef] p1) /\
    (forall pos, 0 <= pos < n_samples ->
       m' (output amp + pos) = Some (scaled (S (Z.to_nat pos)) x0 coef)).
Proof.
  intros Hu Hn Hshift Hg Hx0 Hout.
  destruct (run_usable (audio_task (db_to_coef amp) g) p Hu)
    as (wd & p1 & Hrun & _).
  destruct (audio_task_float (db_to_coef amp) g wd) as [coef Hcoef].
  rewrite Hcoef in Hrun. rewrite Hshift in Hout.
  destruct (scale_shifted (Z.to_nat n_samples) (input amp) coef
              n_samples 0 m x0) as (m' & Hsc & Hall & _);
    try done; try lia.
  { by rewrite Z.add_0_r. }
  exists coef, p1, m'. split; [done|].
  split; [unfold run; by rewrite Hg, Hrun, Hshift, Hsc|].
  intros pos Hpos. rewrite Hshift, Hall by done.
  by rewrite Z.sub_0_r.
Qed.

(** *** The calls into the runtime over the life of the plugin *)

(** A call into the runtime that neither starts it nor shuts it down. *)
Definition plain (c : api_call) : Prop :=
  is_init c = false /\ is_atexit_hook c = false.

(** [l'] is [l] followed by calls that neither start the runtime nor shut it
    down. *)
Definition plain_extension (l l' : list api_call) : Prop :=
  exists more, l' = l ++ more /\ Forall plain more.

Lemma plain_extension_refl (l : list api_call) : plain_extension l l.
Proof. exists []. split; [by rewrite app_nil_r|by apply Forall_nil]. Qed.

Lemma plain_extension_trans (l1 l2 l3 : list api_call) :
  plain_extension l1 l2 -> plain_extension l2 l3 -> plain_extension l1 l3.
Proof.
  intros (m1 & -> & H1) (m2 & -> & H2). exists (m1 ++ m2).
  split; [by rewrite (assoc_L (++))|by apply Forall_app].
Qed.

Lemma plain_extension_snoc (l : list api_call) (c : api_call) :
  plain c -> plain_extension l (l ++ [c]).
Proof. intros Hc. exists [c]. split; [done|by apply Forall_singleton]. Qed.

Lemma report_calls (tag : string) (w : world) :
  calls (report tag w) = calls w.
Proof. unfold report. by destruct (exception_occurred w). Qed.

Lemma call_boxed_calls (f : jl_value) (x : float32) (w : world) :
  plain_extension (calls w) (calls (snd (call_boxed f x w))).
Proof.
  unfold call_boxed. simpl.
  eapply plain_extension_trans; by apply plain_extension_snoc.
Qed.

Lemma hello_task_calls (w : world) :
  plain_extension (calls w) (calls (snd (hello_task w))).
Proof. by apply plain_extension_snoc. Qed.

Lemma include_task_calls (w : world) :
  plain_extension (calls w) (calls (snd (include_task w))).
Proof.
  unfold include_task. simpl. rewrite report_calls. simpl.
  rewrite report_calls. simpl.
  eapply plain_extension_trans; by apply plain_extension_snoc.
Qed.

Lemma test_task_calls (f : jl_value) (w : world) :
  plain_extension (calls w) (calls (snd (test_task f w))).
Proof.
  unfold test_task. destruct (jl_typeis_float32 _); simpl;
    rewrite report_calls;
    apply (call_boxed_calls f f32_minus_three
             (printf ("Testing julia function." +:+ nl) [] w)).
Qed.

Lemma audio_task_calls (f : jl_value) (x : float32) (w : world) :
  plain_extension (calls w) (calls (snd (audio_task f x w))).
Proof.
  unfold audio_task. destruct (jl_typeis_float32 _); simpl;
    apply call_boxed_calls.
Qed.

Lemma print_ready_calls (fmt : string) (args : list printf_arg) (p : process) :
  calls (ready_world (print fmt args p)) = calls (ready_world p).
Proof. by destruct p. Qed.

(** [activate] on a process on which nobody is waiting: the singleton exists
    afterwards, nobody is waiting on it, and the calls made are the ones of
    the start closure, if it had to run, followed by calls that neither
    start the runtime nor shut it down. *)
Lemma activate_on_idle (self : Amp) (p : process) :
  idle p ->
  exists (f : jl_value) (j : worker),
    activate self p =
      Some (Build (gain self) (input self) (output self) f, Live j) /\
    idle (Live j) /\
    plain_extension (calls (ready_world p)) (calls (Worker.world j)).
Proof.
  intros Hi. unfold activate.
  set (p2 := print ("Julia init" +:+ nl) []
               (print ("dlopen libjulia.so" +:+ nl) [] p)).
  assert (idle p2) as Hi2 by (by do 2 apply print_idle).
  destruct (run_on_idle_live hello_task p2 Hi2) as (j3 & -> & Hi3 & Hw3).
  destruct (run_on_idle_live include_task _ Hi3) as (j4 & Hrun4 & Hi4 & Hw4).
  assert (exists f, fst (include_task (ready_world (Live j3))) =
                      Worker.Value (RPointer f)) as [f Hf] by (by eexists).
  rewrite Hrun4, Hf.
  set (p5 := print ("Saving julia function" +:+ nl) [] (Live j4)).
  assert (idle p5) as Hi5 by (by apply print_idle).
  destruct (run_on_idle_live (test_task f) p5 Hi5) as (j6 & Hrun6 & Hi6 & Hw6).
  destruct (test_task_float f (ready_world p5)) as [coef Hcoef].
  simpl db_to_coef. rewrite Hrun6, Hcoef. simpl.
  eexists f, _. split; [done|]. split; [exact Hi6|]. simpl.
  pose proof (hello_task_calls (ready_world p2)) as H3.
  rewrite <- Hw3 in H3. unfold p2 in H3. rewrite !print_ready_calls in H3.
  pose proof (include_task_calls (ready_world (Live j3))) as H4.
  rewrite <- Hw4 in H4.
  pose proof (test_task_calls f (ready_world p5)) as H6.
  rewrite <- Hw6 in H6. unfold p5 in H6. rewrite print_ready_calls in H6.
  eapply plain_extension_trans; [exact H3|].
  eapply plain_extension_trans; [exact H4|exact H6].
Qed.

(** Reached from [p] by calls of [run] that came back, any number of them,
    on any blocks. *)
Inductive after_runs (amp : Amp) : process -> process -> Prop :=
| after_no_run (p : process) : after_runs amp p p
| after_one_more (p p' p'' : process) (n_samples : Z) (m m' : memory) :
    run amp n_samples m p = Some (m', p') ->
    after_runs amp p' p'' ->
    after_runs amp p p''.

Lemma run_on_idle_calls
    (amp : Amp) (n_samples : Z) (m m' : memory) (j : worker) (p' : process) :
  idle (Live j) -> run amp n_samples m (Live j) = Some (m', p') ->
  exists j' : worker,
    p' = Live j' /\ idle (Live j') /\
    plain_extension (calls (Worker.world j)) (calls (Worker.world j')).
Proof.
  intros Hi Hrun. unfold run in Hrun.
  destruct (load m (gain amp)) as [g|]; [|done].
  destruct (run_on_idle_live (audio_task (db_to_coef amp) g) _ Hi)
    as (j1 & Hr1 & Hi1 & Hw1).
  rewrite Hr1 in Hrun.
  destruct (audio_task_float (db_to_coef amp) g (ready_world (Live j)))
    as [coef Hcoef].
  rewrite Hcoef in Hrun.
  destruct (scale _ _ _ _ _ _ _) as [m1|]; [|done].
  simplify_eq. eexists. split; [done|]. split; [exact Hi1|].
  simpl. rewrite Hw1. apply audio_task_calls.
Qed.

Lemma after_runs_calls (amp : Amp) (p p' : process) :
  after_runs amp p p' ->
  forall j : worker, p = Live j -> idle (Live j) ->
  exists j' : worker,
    p' = Live j' /\ idle (Live j') /\
    plain_extension (calls (Worker.world j)) (calls (Worker.world j')).
Proof.
  induction 1 as [p|p p' p'' n m m' Hrun Hrest IH]; intros j -> Hi.
  - exists j. split; [done|]. split; [done|]. apply plain_extension_refl.
  - destruct (run_on_idle_calls _ _ _ _ _ _ Hi Hrun) as (j1 & -> & Hi1 & He1).
    destruct (IH j1 eq_refl Hi1) as (j2 & -> & Hi2 & He2).
    exists j2. split; [done|]. split; [done|].
    by eapply plain_extension_trans.
Qed.

(** X14 (life cycle of the runtime).
    Over the life of a plugin instance in a process that starts without
    singleton (activation, any number of blocks, destruction of the
    singleton at exit): the destructor comes back, the first call into the
    runtime is [jl_init], followed by the start script, the last one is
    [jl_atexit_hook(0)], preceded by the end script, and no call in between
    starts the runtime or shuts it down. *)
Theorem runtime_started_first_and_shut_down_last
    (self self' : Amp) (w : world) (p1 p2 : process) :
  activate self (Fresh w) = Some (self', p1) ->
  after_runs self' p1 p2 ->
  exists (p3 : process) (mid : list api_call),
    Julia.destroy p2 = Some p3 /\
    calls (world_of p3) =
      calls w ++ [CallInit; CallEvalString start_script] ++ mid
              ++ [CallEvalString end_script; CallAtExitHook 0] /\
    Forall plain mid.
Proof.
  intros Hact Hruns.
  destruct (activate_on_idle self (Fresh w) I) as (f & j1 & Hact' & Hi1 & He1).
  rewrite Hact' in Hact. injection Hact as <- <-.
  destruct (after_runs_calls _ _ _ Hruns j1 eq_refl Hi1)
    as (j2 & -> & Hi2 & He2).
  destruct (destroy_on_idle j2 Hi2) as (j3 & Hd & Hw3 & _).
  destruct (plain_extension_trans _ _ _ He1 He2) as (mid & Hmid & Hplain).
  exists (Gone j3), mid. split; [done|]. split; [|done].
  simpl. rewrite Hw3. simpl. rewrite Hmid. simpl.
  by rewrite <- !(assoc_L (++)).
Qed.

(** *** What the closures of [activate] report *)

Lemma report_stdout (tag : string) (w : world) :
  exists more, stdout (report tag w) = stdout w ++ more.
Proof.
  unfold report. destruct (exception_occurred w).
  - by eexists.
  - exists []. by rewrite app_nil_r.
Qed.

(** X15 (error reports of [activate]).
    Each closure of [activate] that calls into the runtime looks for a
    pending exception after the call and prints the name of its type: [E2]
    after the script is loaded, [E3] after the function is looked up, [E4]
    after the trial call. *)
Theorem activate_closures_report (f : jl_value) (w : world) :
  (let m := eval_string include_script
              (printf ("Including amp.jl" +:+ nl) [] w) in
   exception_occurred (snd m) = true ->
   Printf ("E2: %s " +:+ nl)
          [ArgString (jl_typeof_str (jl_exception_occurred (rt (snd m))))]
     ∈ stdout (snd (include_task w))) /\
  (let m := eval_string include_script
              (printf ("Including amp.jl" +:+ nl) [] w) in
   let g := get_function (fst m) "db_to_coef"
              (printf ("Getting julia function" +:+ nl) []
                      (report "E2" (snd m))) in
   exception_occurred (snd g) = true ->
   Printf ("E3: %s " +:+ nl)
          [ArgString (jl_typeof_str (jl_exception_occurred (rt (snd g))))]
     ∈ stdout (snd (include_task w))) /\
  (let ret := call_boxed f f32_minus_three
                (printf ("Testing julia function." +:+ nl) [] w) in
   exception_occurred (snd ret) = true ->
   Printf ("E4: %s " +:+ nl)
          [ArgString (jl_typeof_str (jl_exception_occurred (rt (snd ret))))]
     ∈ stdout (snd (test_task f w))).
Proof.
  split; [|split].
  - intros m Hexc.
    assert (Printf ("E2: %s " +:+ nl)
              [ArgString (jl_typeof_str (jl_exception_occurred (rt (snd m))))]
              ∈ stdout (report "E2" (snd m))) as Hin.
    { unfold report. rewrite Hexc. apply elem_of_snoc_eq. }
    destruct (report_stdout "E3"
                (snd (get_function (fst m) "db_to_coef"
                        (printf ("Getting julia function" +:+ nl) []
                                (report "E2" (snd m)))))) as [more Hmore].
    change (stdout (snd (include_task w))) with
      (stdout (report "E3"
                 (snd (get_function (fst m) "db_to_coef"
                         (printf ("Getting julia function" +:+ nl) []
                                 (report "E2" (snd m))))))).
    rewrite Hmore. simpl. rewrite !elem_of_app. by do 2 left.
  - intros m g Hexc. unfold include_task. fold m. fold g.
    unfold report at 1. rewrite Hexc. apply elem_of_snoc_eq.
  - intros ret Hexc. by apply test_task_reports.
Qed.

End Amp.

(** *** On the stand-in runtime *)

Local Open Scope Z_scope.
#[local] Existing Instance Stub.runtime.

Definition one : float32 := S754_finite false 8388608 (-23).
Definition two : float32 := S754_finite false 8388608 (-22).
Definition three : float32 := S754_finite false 12582912 (-22).

(** The gain at address 1, the input [1.0, 2.0, 3.0] at 10, the output at
    20; nothing else is mapped. *)
Definition block : memory :=
  fun a =>
    if a =? 1 then Some f32_minus_three
    else if a =? 10 then Some one
    else if a =? 11 then Some two
    else if a =? 12 then Some three
    else if (20 <=? a) && (a <=? 22) then Some Stub.zero
    else None.

Definition connected (f : string) : @Amp Stub.runtime :=
  @Build Stub.runtime 1 10 20 (Stub.Function f).

Lemma connect_port_frame_witness :
  connect_port (connected "db_to_coef") 7 99 = connected "db_to_coef" /\
  exists inst : @Amp Stub.runtime,
    instantiate tt one "path" (@nil unit) true = Some inst /\
    gain inst = 0 /\ input inst = 0 /\ output inst = 0 /\
    db_to_coef inst = Stub.Null.
Proof.
  destruct (connect_port_frame (connected "db_to_coef") 99)
    as (_ & _ & _ & Hother & Hinst).
  split.
  - apply Hother; lia.
  - destruct (Hinst unit unit tt tt one one "path"%string "path"%string
                    (@nil unit) (@nil unit) true) as (_ & Hsome & Hnull).
    eexists. split; [exact Hsome|]. apply Hnull. exact Hsome.
Defined.

(** A function that answers an [Int64]: both closures give [-1.0f]. *)
Lemma wrong_type_gives_sentinel_witness :
  fst (audio_task (Stub.Function "as_int") f32_minus_three Julia.stub_world) =
    Worker.Value (Julia.RFloat f32_minus_one) /\
  fst (test_task (Stub.Function "as_int") Julia.stub_world) =
    Worker.Value (Julia.RFloat f32_minus_one) /\
  exists p',
    Julia.run (audio_task (Stub.Function "as_int") f32_minus_three)
              (Julia.Fresh Julia.stub_world) =
      Some (Worker.Value (Julia.RFloat f32_minus_one), p').
Proof.
  destruct (wrong_type_gives_sentinel (H := Stub.runtime)
              (Stub.Function "as_int") f32_minus_three)
    as (Haudio & Htest & Hrun & _).
  split; [apply Haudio; reflexivity|].
  split; [apply Htest; reflexivity|].
  apply Hrun; [exact I|]. intros w. reflexivity.
Defined.

(** The coefficient [0.708f] applied to [1.0, 2.0, 3.0]:
    0.708000004291534..., 1.41600000858306..., 2.12400007247924... *)
Lemma run_scales_every_sample_witness :
  exists m' p',
    run (connected "db_to_coef") 3 block (Julia.Fresh Julia.stub_world) = Some (m', p') /\
    m' 20 = Some (S754_finite false 11878269 (-24)) /\
    m' 21 = Some (S754_finite false 11878269 (-23)) /\
    m' 22 = Some (S754_finite false 8908702 (-22)) /\
    m' 10 = Some one.
Proof.
  destruct (run_scales_every_sample (connected "db_to_coef") 3 block
              (Julia.Fresh Julia.stub_world) f32_minus_three)
    as (coef & p1 & m' & Hcall & Hrun & Hall & Hframe).
  - exact I.
  - lia.
  - reflexivity.
  - intros pos Hpos.
    assert (pos = 0 \/ pos = 1 \/ pos = 2) as [->|[->| ->]] by lia;
      eexists; reflexivity.
  - intros pos Hpos.
    assert (pos = 0 \/ pos = 1 \/ pos = 2) as [->|[->| ->]] by lia;
      eexists; reflexivity.
  - intros i k Hi Hk. simpl. lia.
  - assert (coef = Stub.coef_0708) as ->.
    { vm_compute in Hcall. injection Hcall as Hc _. symmetry. exact Hc. }
    exists m', (Julia.print ("coef = %.2f" +:+ nl) [Julia.ArgFloat Stub.coef_0708] p1).
    split; [exact Hrun|].
    split.
    { destruct (Hall 0) as (x & Hx & Hy); [lia|].
      vm_compute in Hx. injection Hx as <-. exact Hy. }
    split.
    { destruct (Hall 1) as (x & Hx & Hy); [lia|].
      vm_compute in Hx. injection Hx as <-. exact Hy. }
    split.
    { destruct (Hall 2) as (x & Hx & Hy); [lia|].
      vm_compute in Hx. injection Hx as <-. exact Hy. }
    rewrite Hframe; [reflexivity|]. intros pos Hpos. simpl. lia.
Defined.

(** *** More runs on the stand-in runtime *)

Lemma block_input_mapped (pos : Z) :
  0 <= pos < 3 -> is_Some (block (10 + pos)).
Proof.
  intros Hpos.
  assert (pos = 0 \/ pos = 1 \/ pos = 2) as [->|[->| ->]] by lia;
    eexists; reflexivity.
Qed.

Lemma block_output_mapped (pos : Z) :
  0 <= pos < 3 -> is_Some (block (20 + pos)).
Proof.
  intros Hpos.
  assert (pos = 0 \/ pos = 1 \/ pos = 2) as [->|[->| ->]] by lia;
    eexists; reflexivity.
Qed.

(** Activation of an instance whose ports are connected, in a process
    without singleton: the handle is the one the stand-in runtime gives for
    [db_to_coef], not the one the instance held. *)
Lemma activate_keeps_ports_witness :
  exists p' : @Julia.process Stub.runtime,
    activate (connected "none") (Julia.Fresh Julia.stub_world) =
      Some (@Build Stub.runtime 1 10 20 (Stub.Function "db_to_coef"), p').
Proof.
  destruct (activate_keeps_ports (connected "none")
              (Julia.Fresh Julia.stub_world) I)
    as (wd & f & p' & _ & Ha & _ & Hpin).
  specialize (Hpin I). vm_compute in Hpin. injection Hpin as <-.
  exists p'. exact Ha.
Defined.

(** Output, then gain, then output again. *)
Lemma connect_port_composes_witness :
  connect_port (connect_port (connected "f") 2 30) 2 40 =
    connect_port (connected "f") 2 40 /\
  connect_port (connect_port (connected "f") 2 30) 0 5 =
    connect_port (connect_port (connected "f") 0 5) 2 30.
Proof.
  split.
  - apply (proj1 (connect_port_composes (connected "f") 2 0 30 40)).
  - apply (proj2 (connect_port_composes (connected "f") 2 0 30 5)). lia.
Defined.

(** One block, and the gain cell is still mapped for the next one. *)
Lemma run_can_be_repeated_witness :
  exists m' (p' : @Julia.process Stub.runtime),
    run (connected "db_to_coef") 3 block (Julia.Fresh Julia.stub_world)
      = Some (m', p') /\
    Julia.usable p' /\ is_Some (m' 1).
Proof.
  destruct (run_can_be_repeated (connected "db_to_coef") 3 block
              (Julia.Fresh Julia.stub_world) f32_minus_three)
    as (m' & p' & Hrun & Hu & Hdom & _).
  - exact I.
  - lia.
  - reflexivity.
  - apply block_input_mapped.
  - apply block_output_mapped.
  - exists m', p'. split; [exact Hrun|]. split; [exact Hu|].
    apply Hdom. eexists. reflexivity.
Defined.

(** An empty block on an instance whose buffers are not connected. *)
Lemma run_on_empty_block_witness :
  exists p' : @Julia.process Stub.runtime,
    run (@Build Stub.runtime 1 0 0 (Stub.Function "db_to_coef")) 0 block
        (Julia.Fresh Julia.stub_world) = Some (block, p').
Proof.
  destruct (run_on_empty_block
              (@Build Stub.runtime 1 0 0 (Stub.Function "db_to_coef")) block
              (Julia.Fresh Julia.stub_world) f32_minus_three I eq_refl)
    as (coef & p1 & _ & Hrun).
  eexists. exact Hrun.
Defined.

(** [1.0, 2.0, 3.0] scaled in place by [0.708f]. *)
Lemma run_in_place_witness :
  exists m' (p' : @Julia.process Stub.runtime),
    run (@Build Stub.runtime 1 10 10 (Stub.Function "db_to_coef")) 3 block
        (Julia.Fresh Julia.stub_world) = Some (m', p') /\
    m' 12 = Some (S754_finite false 8908702 (-22)).
Proof.
  destruct (run_in_place
              (@Build Stub.runtime 1 10 10 (Stub.Function "db_to_coef")) 3
              block (Julia.Fresh Julia.stub_world) f32_minus_three)
    as (coef & p1 & m' & Hcall & Hrun & Hall).
  - exact I.
  - lia.
  - reflexivity.
  - reflexivity.
  - apply block_input_mapped.
  - assert (coef = Stub.coef_0708) as ->.
    { vm_compute in Hcall. injection Hcall as Hc _. symmetry. exact Hc. }
    eexists m', _. split; [exact Hrun|].
    destruct (Hall 2) as (x & Hx & Hy); [lia|].
    vm_compute in Hx. injection Hx as <-. exact Hy.
Defined.

(** A function that answers an [Int64]: [3.0] becomes [-3.0]. *)
Lemma run_applies_the_sentinel_witness :
  exists m' (p' : @Julia.process Stub.runtime),
    run (connected "as_int") 3 block (Julia.Fresh Julia.stub_world)
      = Some (m', p') /\
    m' 22 = Some f32_minus_three.
Proof.
  destruct (run_applies_the_sentinel (connected "as_int") 3 block
              (Julia.Fresh Julia.stub_world) f32_minus_three)
    as (p1 & m' & Hrun & Hall).
  - exact I.
  - lia.
  - reflexivity.
  - intros w. reflexivity.
  - apply block_input_mapped.
  - apply block_output_mapped.
  - intros i k Hi Hk. simpl. lia.
  - eexists m', _. split; [exact Hrun|].
    destruct (Hall 2) as (x & Hx & Hy); [lia|].
    vm_compute in Hx. injection Hx as <-. exact Hy.
Defined.

(** Input at 10, output at 11, two samples: the second output sample is the
    first input sample [1.0] multiplied twice by [0.708f]. *)
Lemma run_on_shifted_buffers_witness :
  exists m' (p' : @Julia.process Stub.runtime),
    run (@Build Stub.runtime 1 10 11 (Stub.Function "db_to_coef")) 2 block
        (Julia.Fresh Julia.stub_world) = Some (m', p') /\
    m' 11 = Some Stub.coef_0708 /\
    m' 12 = Some (f32_mul Stub.coef_0708 Stub.coef_0708).
Proof.
  destruct (run_on_shifted_buffers
              (@Build Stub.runtime 1 10 11 (Stub.Function "db_to_coef")) 2
              block (Julia.Fresh Julia.stub_world) f32_minus_three one)
    as (coef & p1 & m' & Hcall & Hrun & Hall).
  - exact I.
  - lia.
  - reflexivity.
  - reflexivity.
  - reflexivity.
  - intros pos Hpos.
    assert (pos = 0 \/ pos = 1) as [->| ->] by lia; eexists; reflexivity.
  - assert (coef = Stub.coef_0708) as ->.
    { vm_compute in Hcall. injection Hcall as Hc _. symmetry. exact Hc. }
    eexists m', _. split; [exact Hrun|]. split.
    + apply (Hall 0). lia.
    + apply (Hall 1). lia.
Defined.

(** One block of [block] on a process on which nobody is waiting. *)
Lemma block_run_on_idle (f : Stub.value) (p : @Julia.process Stub.runtime) :
  Julia.idle p ->
  exists m' p',
    run (@Build Stub.runtime 1 10 20 f) 3 block p = Some (m', p').
Proof.
  intros Hi.
  destruct (Julia.run_on_idle (@audio_task Stub.runtime f f32_minus_three)
              p Hi) as (p1 & Hrun & _).
  destruct (@audio_task_float Stub.runtime f f32_minus_three
              (Julia.ready_world p))
    as [coef Hc].
  rewrite Hc in Hrun.
  destruct (scale_total 3 10 20 coef 3 0 block) as (m' & Hsc & _).
  - lia.
  - lia.
  - reflexivity.
  - intros q Hq. apply block_input_mapped. lia.
  - intros q Hq. apply block_output_mapped. lia.
  - eexists m', _. unfold run. cbn [gain input output db_to_coef].
    change (load block 1) with (Some f32_minus_three). cbv iota beta.
    rewrite Hrun. change (Z.to_nat 3) with 3%nat. rewrite Hsc. reflexivity.
Qed.

(** Activation, one block, destruction. *)
Lemma runtime_started_first_and_shut_down_last_witness :
  exists (self' : @Amp Stub.runtime) (p1 p2 p3 : @Julia.process Stub.runtime)
         (mid : list (@Julia.api_call Stub.runtime)),
    activate (connected "none") (Julia.Fresh Julia.stub_world)
      = Some (self', p1) /\
    after_runs self' p1 p2 /\
    Julia.destroy p2 = Some p3 /\
    Julia.calls (Julia.world_of p3) =
      [Julia.CallInit; Julia.CallEvalString Julia.start_script] ++ mid
        ++ [Julia.CallEvalString Julia.end_script; Julia.CallAtExitHook 0].
Proof.
  destruct (activate_on_idle (connected "none")
              (Julia.Fresh Julia.stub_world) I) as (f & j & Ha & Hi & _).
  destruct (block_run_on_idle f (Julia.Live j) Hi) as (m' & p2 & Hrun).
  pose proof (after_one_more _ _ _ _ _ _ _ Hrun (after_no_run _ _)) as Hruns.
  destruct (runtime_started_first_and_shut_down_last _ _ _ _ _ Ha Hruns)
    as (p3 & mid & Hd & Hcalls & _).
  eexists _, _, _, p3, mid. split; [exact Ha|].
  split; [exact Hruns|]. split; [exact Hd|exact Hcalls].
Defined.

(** A runtime that cannot find the file: [include] raises. *)
Definition no_file : LibJulia := {|
  jl_state := Stub.value;
  jl_value := Stub.value;
  jl_null := Stub.Null;
  jl_is_null := Stub.is_null;
  jl_init := fun _ => Stub.Null;
  jl_atexit_hook := fun _ exc => exc;
  jl_eval_string := fun s exc =>
    if String.prefix "include(" s then (Stub.Null, Stub.Error "SystemError")
    else Stub.eval_string s exc;
  jl_get_function := Stub.get_function;
  jl_box_float32 := fun x exc => (Stub.Float32 x, exc);
  jl_call1 := Stub.call1;
  jl_exception_occurred := fun exc => exc;
  jl_typeof_str := Stub.typeof_str;
  jl_typeis_float32 := Stub.typeis_float32;
  jl_unbox_float32 := Stub.unbox_float32
|}.

(** The file is missing: [E2] and [E3] are printed; the function raises:
    [E4] is printed. *)
Lemma activate_closures_report_witness :
  Julia.Printf ("E2: %s " +:+ nl) [Julia.ArgString "SystemError"]
    ∈ @Julia.stdout no_file
        (snd (@include_task no_file (@Julia.World no_file Stub.Null [] []))) /\
  Julia.Printf ("E3: %s " +:+ nl) [Julia.ArgString "SystemError"]
    ∈ @Julia.stdout no_file
        (snd (@include_task no_file (@Julia.World no_file Stub.Null [] []))) /\
  Julia.Printf ("E4: %s " +:+ nl) [Julia.ArgString "DomainError"]
    ∈ Julia.stdout (snd (test_task (Stub.Function "raises") Julia.stub_world)).
Proof.
  destruct (@activate_closures_report no_file Stub.Null
              (@Julia.World no_file Stub.Null [] [])) as (H2 & H3 & _).
  destruct (@activate_closures_report Stub.runtime (Stub.Function "raises")
              Julia.stub_world) as (_ & _ & H4).
  split; [exact (H2 eq_refl)|]. split; [exact (H3 eq_refl)|exact (H4 eq_refl)].
Defined.

(** *** An error raised inside the runtime *)

Definition raising_script : string :=
  "error(" +:+ dq +:+ "boom" +:+ dq +:+ ")".

(** C4 (errors raised inside the runtime), at inputs where the runtime
    raises.  [Julia::run(s)] for a script that raises returns with nothing
    printed and the exception still pending in the runtime; the closure of
    the audio callback, called with a function that raises, prints nothing
    either and leaves the exception pending; the closure of the trial call in
    [activate], given the same function, prints the report [E4]. *)
Theorem runtime_error_not_surfaced :
  (exists p',
     Julia.run_script raising_script (Julia.Fresh Julia.stub_world) = Some p' /\
     Julia.stdout (Julia.world_of p') = [] /\
     Julia.exception_occurred (Julia.world_of p') = true) /\
  (Julia.stdout (snd (audio_task (Stub.Function "raises") f32_minus_three
                           Julia.stub_world)) = [] /\
   Julia.exception_occurred
     (snd (audio_task (Stub.Function "raises") f32_minus_three Julia.stub_world))
     = true) /\
  Julia.Printf ("E4: %s " +:+ nl) [Julia.ArgString "DomainError"] ∈
    Julia.stdout (snd (test_task (Stub.Function "raises") Julia.stub_world)).
Proof.
  split.
  { eexists. split; [reflexivity|]. by split. }
  split; [by split|].
  vm_compute. apply elem_of_cons. right. apply elem_of_cons. by left.
Qed.

End Amp.
